(** * simple-markov-go: a character-level Markov chain (main.go)

    A shallow embedding of [MarkovChain], [NewMarkovChain], [AddText] and
    [Generate], with the parts of the Go language and of its libraries the
    two methods rely on:

    - a Go [string] is a sequence of bytes: [list ascii];
    - a Go [int] is a 64-bit integer: [Z] with the wrap-around written out
      where the code subtracts or adds;
    - a [rune] is a code point held in an [int32]: [Z];
    - a run-time panic (slice or index out of range, [rand.Intn] on a
      non-positive bound) is the result [None];
    - [math/rand] is an interface [RandSource]: a state, [Seed] and [Intn];
    - [for k := range m] enumerates the keys of a map in an order the
      language does not fix: an interface [MapIter];
    - [time.Now().UnixNano()] is a reading [now] handed to the call. *)

From Stdlib Require Import ZArith Ascii.
From stdpp Require Import gmap strings list fin_maps.

Local Open Scope Z_scope.

(** ** Go values *)

Abbreviation gostring := (list ascii) (only parsing).

(** A string literal as the bytes it holds. *)
Definition bytes (s : string) : gostring := String.list_ascii_of_string s.

Definition MaxInt : Z := 2 ^ 63 - 1.

(** Two's complement wrap-around of a 64-bit [int]. *)
Definition wrap (z : Z) : Z := (z + 2 ^ 63) mod 2 ^ 64 - 2 ^ 63.

Definition int_add (a b : Z) : Z := wrap (a + b).
Definition int_sub (a b : Z) : Z := wrap (a - b).

(** [len(x)] of a string or of a slice. *)
Definition len {A} (l : list A) : Z := Z.of_nat (length l).

(** [s[lo:hi]]: panics unless [0 <= lo <= hi <= len(s)]. *)
Definition slice {A} (s : list A) (lo hi : Z) : option (list A) :=
  if decide (0 ≤ lo ∧ lo ≤ hi ∧ hi ≤ len s)
  then Some (take (Z.to_nat (hi - lo)) (drop (Z.to_nat lo) s))
  else None.

(** [s[i]]: panics unless [0 <= i < len(s)]. *)
Definition index {A} (s : list A) (i : Z) : option A :=
  if decide (0 ≤ i) then s !! Z.to_nat i else None.

(** [rune(b)] for a byte [b]: the code point with the byte's value. *)
Definition rune (b : ascii) : Z := Z.of_N (N_of_ascii b).

(** [byte(z)]: the low eight bits. *)
Definition byte (z : Z) : ascii := ascii_of_N (Z.to_N (z mod 256)).

(** ** unicode/utf8 *)

Definition RuneError : Z := 65533.

(** [utf8.AppendRune(nil, r)], which is what [strings.Builder.WriteRune] adds
    to the buffer and what the conversion [string(r)] yields: one byte below
    0x80, two below 0x800, the three bytes of U+FFFD for a surrogate or a
    value that is no code point, three below 0x10000, four otherwise. *)
Definition EncodeRune (r : Z) : gostring :=
  if decide (0 ≤ r ∧ r ≤ 127) then [byte r]
  else if decide (0 ≤ r ∧ r ≤ 2047) then
    [byte (Z.lor 192 (Z.shiftr r 6)); byte (Z.lor 128 (Z.land r 63))]
  else
    let encode3 (c : Z) :=
      [byte (Z.lor 224 (Z.shiftr c 12));
       byte (Z.lor 128 (Z.land (Z.shiftr c 6) 63));
       byte (Z.lor 128 (Z.land c 63))] in
    if decide (r < 0 ∨ 1114111 < r ∨ (55296 ≤ r ∧ r ≤ 57343)) then encode3 RuneError
    else if decide (r ≤ 65535) then encode3 r
    else
      [byte (Z.lor 240 (Z.shiftr r 18));
       byte (Z.lor 128 (Z.land (Z.shiftr r 12) 63));
       byte (Z.lor 128 (Z.land (Z.shiftr r 6) 63));
       byte (Z.lor 128 (Z.land r 63))].

(** ** math/rand *)

(** The generator behind [rand.Seed] and [rand.Intn]. [Intn_draw g n] is the
    number drawn and the generator's next state; for [0 < n] the number is in
    [[0, n)]. *)
Record RandSource := {
  rstate : Type;
  Seed : Z → rstate;
  Intn_draw : rstate → Z → Z * rstate;
  Intn_range : ∀ g n, 0 < n → 0 ≤ (Intn_draw g n).1 ∧ (Intn_draw g n).1 < n
}.

(** [rand.Intn(n)] panics if [n <= 0]. *)
Definition Intn (R : RandSource) (g : rstate R) (n : Z) : option (Z * rstate R) :=
  if decide (n ≤ 0) then None else Some (Intn_draw R g n).

(** ** Iteration over a map *)

(** The order in which the [k]-th [range] statement of a call yields the
    keys: some permutation of them, not fixed by the language and not the same
    from one iteration to the next. *)
Record MapIter := {
  iter_order : nat → list gostring → list gostring;
  iter_perm : ∀ k l, iter_order k l ≡ₚ l
}.

(** ** The chain *)

Record MarkovChain := {
  transitions : gmap gostring (list Z);
  order : Z
}.

Definition NewMarkovChain (order : Z) : MarkovChain :=
  {| transitions := ∅; order := order |}.

(** The keys of the table, in the map's own (canonical) order. *)
Definition keys (mc : MarkovChain) : list gostring := (map_to_list (transitions mc)).*1.

(** [mc.transitions[state]]: the nil slice for a state that has no entry. *)
Definition successors (mc : MarkovChain) (state : gostring) : list Z :=
  default [] (transitions mc !! state).

(** ** AddText *)

(** [mc.transitions[state] = append(mc.transitions[state], nextChar)]. *)
Definition append_transition (mc : MarkovChain) (state : gostring) (nextChar : Z)
    : MarkovChain :=
  {| transitions := <[state := successors mc state ++ [nextChar]]> (transitions mc);
     order := order mc |}.

(** The body of the [for] loop, [n] iterations from index [i]. *)
Fixpoint AddText_loop (n : nat) (text : gostring) (i : Z) (mc : MarkovChain)
    : option MarkovChain :=
  match n with
  | O => Some mc
  | S n' =>
      state ← slice text i (int_add i (order mc));
      b ← index text (int_add i (order mc));
      let nextChar := rune b in
      AddText_loop n' text (i + 1) (append_transition mc state nextChar)
  end.

Definition AddText (mc : MarkovChain) (text : gostring) : option MarkovChain :=
  if decide (len text ≤ order mc) then Some mc
  else AddText_loop (Z.to_nat (int_sub (len text) (order mc))) text 0 mc.

(** Several calls of [AddText] on one chain, in order. *)
Fixpoint AddTexts (mc : MarkovChain) (texts : list gostring) : option MarkovChain :=
  match texts with
  | [] => Some mc
  | text :: rest => mc' ← AddText mc text; AddTexts mc' rest
  end.

(** ** Generate *)

(** The variables of the generation loop. [picks] is a log that the code does
    not keep: the cursor and the rune of every [WriteRune], oldest first.
    [ranges] counts the [range] statements run so far in the call. *)
Record LoopState (R : RandSource) := {
  rng : rstate R;
  ranges : nat;
  currentState : gostring;
  result : gostring;
  picks : list (gostring * Z)
}.
Arguments rng {R}.
Arguments ranges {R}.
Arguments currentState {R}.
Arguments result {R}.
Arguments picks {R}.

Inductive Flow (R : RandSource) :=
  | Continue (st : LoopState R)
  | Break (st : LoopState R).
Arguments Continue {R}.
Arguments Break {R}.

(** What a call hands back: the string returned, the log of the loop, the
    number of [range] statements it ran (one for each random choice of a
    state), and whether the loop was left through its [break]. *)
Record Run := {
  output : gostring;
  emitted : list (gostring * Z);
  reseeds : nat;
  stuck : bool
}.

Section Generate.
Context (R : RandSource) (it : MapIter).

(** [for state := range mc.transitions { states = append(states, state) }]
    followed by [states[rand.Intn(len(states))]]. *)
Definition random_state (mc : MarkovChain) (g : rstate R) (k : nat)
    : option (gostring * rstate R) :=
  let states := iter_order it k (keys mc) in
  '(idx, g') ← Intn R g (len states);
  state ← index states idx;
  Some (state, g').

(** The cursor after [nextChar] was written. *)
Definition advance (mc : MarkovChain) (cur : gostring) (nextChar : Z) : option gostring :=
  if decide (order mc > 1) then
    if decide (len cur > 0) then
      rest ← slice cur 1 (len cur); Some (rest ++ EncodeRune nextChar)
    else Some (EncodeRune nextChar)
  else Some (EncodeRune nextChar).

(** From [nextChar := nextRunes[rand.Intn(len(nextRunes))]] to the end of
    the loop body. *)
Definition emit (mc : MarkovChain) (st : LoopState R) (nextRunes : list Z)
    : option (Flow R) :=
  '(idx, g) ← Intn R (rng st) (len nextRunes);
  nextChar ← index nextRunes idx;
  cur ← advance mc (currentState st) nextChar;
  Some (Continue {| rng := g; ranges := ranges st; currentState := cur;
                    result := result st ++ EncodeRune nextChar;
                    picks := picks st ++ [(currentState st, nextChar)] |}).

(** One iteration of the generation loop. *)
Definition Generate_step (mc : MarkovChain) (st : LoopState R) : option (Flow R) :=
  let nextRunes := successors mc (currentState st) in
  if decide (len nextRunes = 0) then
    '(state, g) ← random_state mc (rng st) (ranges st);
    let st' := {| rng := g; ranges := S (ranges st); currentState := state;
                  result := result st; picks := picks st |} in
    let nextRunes := successors mc state in
    if decide (len nextRunes = 0) then Some (Break st')
    else emit mc st' nextRunes
  else emit mc st nextRunes.

(** [for i := 0; i < needed; i++]: [n] iterations are left. *)
Fixpoint Generate_loop (n : nat) (mc : MarkovChain) (st : LoopState R)
    : option (LoopState R * bool) :=
  match n with
  | O => Some (st, false)
  | S n' =>
      fl ← Generate_step mc st;
      match fl with
      | Break st' => Some (st', true)
      | Continue st' => Generate_loop n' mc st'
      end
  end.

Definition Generate_run (now : Z) (mc : MarkovChain) (length : Z) (seed : Z)
    (starter : gostring) : option Run :=
  if decide (length ≤ 0) then
    Some {| output := []; emitted := []; reseeds := 0; stuck := false |}
  else
    let g := if decide (seed < 0) then Seed R now else Seed R seed in
    if decide (Z.of_nat (size (transitions mc)) = 0) then
      if decide (len starter > length) then
        out ← slice starter 0 length;
        Some {| output := out; emitted := []; reseeds := 0; stuck := false |}
      else Some {| output := starter; emitted := []; reseeds := 0; stuck := false |}
    else if decide (len starter >= length) then
      out ← slice starter 0 length;
      Some {| output := out; emitted := []; reseeds := 0; stuck := false |}
    else
      let needed := int_sub length (len starter) in
      '(cur, g, k) ←
        (if decide (len starter >= order mc) then
           cur ← slice starter (int_sub (len starter) (order mc)) (len starter);
           Some (cur, g, 0%nat)
         else
           '(cur, g') ← random_state mc g 0;
           Some (cur, g', 1%nat));
      '(st, brk) ← Generate_loop (Z.to_nat needed) mc
         {| rng := g; ranges := k; currentState := cur; result := starter; picks := [] |};
      Some {| output := result st; emitted := picks st; reseeds := ranges st;
              stuck := brk |}.

Definition Generate (now : Z) (mc : MarkovChain) (length : Z) (seed : Z)
    (starter : gostring) : option gostring :=
  output <$> Generate_run now mc length seed starter.

End Generate.

(** ** Concrete collaborators, for running the model *)

(** A linear congruential generator. *)
Program Definition lcg : RandSource := {|
  rstate := Z;
  Seed := λ s, s;
  Intn_draw := λ g n,
    let g' := (g * 6364136223846793005 + 1442695040888963407) mod 2 ^ 64 in
    ((g' / 2 ^ 33) mod n, g')
|}.
Next Obligation.
  intros g n Hn. simpl.
  set (g' := (g * 6364136223846793005 + 1442695040888963407) mod 2 ^ 64).
  pose proof (Z.mod_pos_bound (g' / 2 ^ 33) n Hn). lia.
Qed.

(** Every [range] yields the keys in the map's own order. *)
Program Definition iter_fwd : MapIter := {| iter_order := λ _ l, l |}.
Next Obligation. done. Qed.

(** Every [range] yields them in the opposite order. *)
Program Definition iter_rev : MapIter := {| iter_order := λ _ l, reverse l |}.
Next Obligation. intros. apply reverse_Permutation. Qed.

(** ** What the specification says of the table *)

(** [c] was seen in [corpus] right after an occurrence of [state]. *)
Definition follows (corpus state : gostring) (c : Z) : Prop :=
  ∃ before b after, corpus = before ++ state ++ b :: after ∧ c = rune b.

(** The scan of the specification: for each start [i] of [starts], in order,
    the state is [corpus[i : i+k]] and the character recorded for it is
    [corpus[i+k]]; [observed] keeps the characters recorded for [state]. *)
Definition observed (corpus : gostring) (k : Z) (state : gostring) (starts : list nat)
    : list Z :=
  omap (λ i, if decide (take (Z.to_nat k) (drop i corpus) = state)
             then rune <$> corpus !! (i + Z.to_nat k)%nat else None) starts.

(** The table the specification describes for [corpus] and order [k]: an entry
    for every state with at least one recorded character, and no other. *)
Definition spec_entry (corpus : gostring) (k : Z) (state : gostring) : option (list Z) :=
  match observed corpus k state (seq 0 (Z.to_nat (len corpus - k))) with
  | [] => None
  | l => Some l
  end.

(** ** Properties of a chain used below *)

(** No list of the table is empty. *)
Definition lists_nonempty (mc : MarkovChain) : Prop :=
  ∀ s l, transitions mc !! s = Some l → l ≠ [].

(** Every rune of the table was seen after its state in [text]. *)
Definition faithful (text : gostring) (mc : MarkovChain) : Prop :=
  ∀ s c, c ∈ successors mc s → follows text s c.

(** Every rune of the table is below 0x80. *)
Definition table_ascii (mc : MarkovChain) : Prop :=
  ∀ s c, c ∈ successors mc s → 0 ≤ c ∧ c ≤ 127.

(** The bytes the loop wrote for a stretch of its log. *)
Definition written (log : list (gostring * Z)) : gostring :=
  concat ((λ p, EncodeRune p.2) <$> log).

(** ** Small chains *)

(** The chain of the corpus "ababab" with order 1. *)
Definition ababab : MarkovChain :=
  {| transitions := {[ bytes "a" := [98; 98; 98]; bytes "b" := [97; 97] ]}; order := 1 |}.

(** The chain of the corpus "aba" with order 1. *)
Definition aba : MarkovChain :=
  {| transitions := {[ bytes "a" := [98]; bytes "b" := [97] ]}; order := 1 |}.

(** The two bytes C3 A9 of the UTF-8 encoding of U+00E9. *)
Definition eacute : gostring := [byte 195; byte 169].

(** The chain of the corpus C3 A9 C3 A9 with order 1: after the byte C3 comes
    A9 (twice), after A9 comes C3. *)
Definition eacute_chain : MarkovChain :=
  {| transitions := {[ [byte 195] := [169; 169]; [byte 169] := [195] ]}; order := 1 |}.

(** ** More vocabulary for tables and runs *)

(** The characters the scans of [texts], one text after the other, record
    for [state]. *)
Definition observed_all (texts : list gostring) (k : Z) (state : gostring) : list Z :=
  concat ((λ t, observed t k state (seq 0 (Z.to_nat (len t - k)))) <$> texts).

(** The number of transitions the table holds, over all its lists. *)
Definition transition_count (mc : MarkovChain) : nat :=
  sum_list_with (λ p, length p.2) (map_to_list (transitions mc)).

(** Every key of the table has [order] bytes. *)
Definition keys_have_order (mc : MarkovChain) : Prop :=
  ∀ s, is_Some (transitions mc !! s) → len s = order mc.

(** Every byte of the text is below 0x80. *)
Definition text_ascii (text : gostring) : Prop := ∀ b, b ∈ text → rune b ≤ 127.

(** The last [k] bytes of [s]. *)
Definition trail (k : Z) (s : gostring) : gostring := drop (length s - Z.to_nat k) s.

(** ** main *)

(** The values of the flags after [flag.Parse()]. *)
Record Flags := {
  flag_k : Z;
  flag_l : Z;
  flag_i : gostring;
  flag_seed : Z;
  flag_starter : gostring
}.

(** The flags when none is given on the command line. *)
Definition default_flags : Flags :=
  {| flag_k := 1; flag_l := 100; flag_i := []; flag_seed := -1; flag_starter := [] |}.

(** An [io.Reader] read to its end: the bytes it delivers, and whether it
    ends in a read error instead of the end of the input. *)
Record Stream := {
  content : gostring;
  fails : bool
}.

(** What the program finds outside: [os.Open] on a path ([None] when the file
    cannot be opened) and the standard input. *)
Record Env := {
  open : gostring → option Stream;
  stdin : Stream
}.

(** How a run of the program ends: a message on the standard error and exit
    status 1 for a file that cannot be opened or read, a panic, or a line on
    the standard output. *)
Inductive Outcome :=
  | OpenError
  | ReadError
  | Panic
  | Printed (line : gostring).

(** The tokens of a scanner split by [bufio.ScanBytes]: one per byte. *)
Definition ScanBytes (data : gostring) : list gostring := (λ b, [b]) <$> data.

(** [for scanner.Scan() { builder.WriteString(scanner.Text()) }]. *)
Definition scan_text (data : gostring) : gostring :=
  foldl (λ builder token, builder ++ token) [] (ScanBytes data).

Definition main (R : RandSource) (it : MapIter) (now : Z) (env : Env) (f : Flags)
    : Outcome :=
  match (if decide (flag_i f ≠ []) then open env (flag_i f) else Some (stdin env)) with
  | None => OpenError
  | Some reader =>
      let text := scan_text (content reader) in
      if fails reader then ReadError
      else
        match AddText (NewMarkovChain (flag_k f)) text with
        | None => Panic
        | Some mc =>
            match Generate R it now mc (flag_l f) (flag_seed f) (flag_starter f) with
            | None => Panic
            | Some output => Printed (output ++ [byte 10])
            end
        end
  end.

(** ** A small environment *)

(** One readable file, "corpus.txt", holding "abab", and "x" on the standard
    input. *)
Definition sample_env : Env :=
  {| open := λ path, if decide (path = bytes "corpus.txt")
                     then Some {| content := bytes "abab"; fails := false |} else None;
     stdin := {| content := bytes "x"; fails := false |} |}.

(** [-k 2 -l 5 -starter hi], reading the standard input. *)
Definition flags_short : Flags :=
  {| flag_k := 2; flag_l := 5; flag_i := []; flag_seed := -1; flag_starter := bytes "hi" |}.

(** [-k 1 -l 6 -i corpus.txt -seed 7]. *)
Definition flags_file : Flags :=
  {| flag_k := 1; flag_l := 6; flag_i := bytes "corpus.txt"; flag_seed := 7;
     flag_starter := [] |}.

(** * Properties *)

(** ** Integers, slices and indexing *)

Lemma wrap_id z : - 2 ^ 63 ≤ z → z ≤ MaxInt → wrap z = z.
Proof.
  unfold wrap, MaxInt. intros Hlo Hhi.
  rewrite Z.mod_small; lia.
Qed.

Lemma int_sub_exact a b : - 2 ^ 63 ≤ a - b → a - b ≤ MaxInt → int_sub a b = a - b.
Proof. apply wrap_id. Qed.

Lemma int_add_exact a b : - 2 ^ 63 ≤ a + b → a + b ≤ MaxInt → int_add a b = a + b.
Proof. apply wrap_id. Qed.

Lemma len_nonneg {A} (l : list A) : 0 ≤ len l.
Proof. unfold len. lia. Qed.

Lemma len_app {A} (l1 l2 : list A) : len (l1 ++ l2) = len l1 + len l2.
Proof. unfold len. rewrite length_app. lia. Qed.

Lemma len_nil_inv {A} (l : list A) : len l = 0 → l = [].
Proof. unfold len. destruct l; simpl; [done | lia]. Qed.

Lemma slice_Some {A} (s t : list A) lo hi :
  slice s lo hi = Some t →
  0 ≤ lo ∧ lo ≤ hi ∧ hi ≤ len s ∧
  t = take (Z.to_nat (hi - lo)) (drop (Z.to_nat lo) s) ∧ len t = hi - lo.
Proof.
  unfold slice. case_decide as Hb; [|done]. intros [= <-].
  destruct Hb as (H0 & H1 & H2). repeat split; try done.
  unfold len in *. rewrite length_take, length_drop. lia.
Qed.

Lemma slice_in_range {A} (s : list A) lo hi :
  0 ≤ lo → lo ≤ hi → hi ≤ len s →
  slice s lo hi = Some (take (Z.to_nat (hi - lo)) (drop (Z.to_nat lo) s)).
Proof. intros. unfold slice. rewrite decide_True; done. Qed.

Lemma slice_prefix {A} (s : list A) n :
  0 ≤ n → n ≤ len s → slice s 0 n = Some (take (Z.to_nat n) s).
Proof.
  intros. rewrite slice_in_range by lia.
  by rewrite Z.sub_0_r.
Qed.

Lemma index_Some {A} (s : list A) i x :
  index s i = Some x → 0 ≤ i ∧ i < len s ∧ s !! Z.to_nat i = Some x.
Proof.
  unfold index. case_decide; [|done]. intros Hx.
  pose proof (lookup_lt_Some _ _ _ Hx). unfold len. repeat split; [done | lia | done].
Qed.

Lemma index_in_range {A} (s : list A) i :
  0 ≤ i → i < len s → ∃ x, index s i = Some x ∧ x ∈ s.
Proof.
  intros H0 H1. unfold index. rewrite decide_True by done.
  destruct (lookup_lt_is_Some_2 s (Z.to_nat i)) as [x Hx]; [unfold len in H1; lia|].
  exists x. split; [done|]. by eapply list_elem_of_lookup_2.
Qed.

(** A slice followed by the byte after it: the string splits around them. *)
Lemma slice_index_split {A} (s t : list A) lo hi x :
  slice s lo hi = Some t → index s hi = Some x →
  s = take (Z.to_nat lo) s ++ t ++ x :: drop (S (Z.to_nat hi)) s.
Proof.
  intros (H0 & H1 & H2 & -> & _)%slice_Some (_ & H3 & Hx)%index_Some.
  rewrite <- (take_drop (Z.to_nat lo) s) at 1. f_equal.
  rewrite <- (take_drop (Z.to_nat (hi - lo)) (drop (Z.to_nat lo) s)) at 1. f_equal.
  rewrite drop_drop.
  replace (Z.to_nat lo + Z.to_nat (hi - lo))%nat with (Z.to_nat hi) by lia.
  by apply drop_S.
Qed.

(** ** The encoding of a rune *)

Example EncodeRune_samples :
  EncodeRune 97 = [byte 97] ∧
  EncodeRune 233 = [byte 195; byte 169] ∧
  EncodeRune 8364 = [byte 226; byte 130; byte 172] ∧
  EncodeRune 128512 = [byte 240; byte 159; byte 152; byte 128] ∧
  EncodeRune 55296 = [byte 239; byte 191; byte 189] ∧
  EncodeRune (-1) = [byte 239; byte 191; byte 189].
Proof. by repeat split. Qed.

Lemma EncodeRune_ascii r : 0 ≤ r → r ≤ 127 → EncodeRune r = [byte r].
Proof. intros. unfold EncodeRune. rewrite decide_True; done. Qed.

Lemma rune_range b : 0 ≤ rune b ∧ rune b ≤ 255.
Proof. unfold rune. destruct b as [[] [] [] [] [] [] [] []]; vm_compute; split; discriminate. Qed.

Lemma byte_rune b : byte (rune b) = b.
Proof. destruct b as [[] [] [] [] [] [] [] []]; reflexivity. Qed.

(** ** AddText *)

Lemma successors_append_transition mc state c s :
  successors (append_transition mc state c) s =
  if decide (state = s) then successors mc state ++ [c] else successors mc s.
Proof.
  unfold successors, append_transition. simpl.
  rewrite lookup_insert. by case_decide; simplify_eq.
Qed.

Lemma lookup_append_transition mc state c s :
  transitions (append_transition mc state c) !! s =
  if decide (state = s) then Some (successors mc state ++ [c]) else transitions mc !! s.
Proof. unfold append_transition. simpl. by rewrite lookup_insert. Qed.

(** A property of the chain that every recorded transition preserves holds
    when the loop is left. *)
Lemma AddText_loop_inv (I : MarkovChain → Prop) text :
  (∀ mc i state b, I mc →
     slice text i (int_add i (order mc)) = Some state →
     index text (int_add i (order mc)) = Some b →
     I (append_transition mc state (rune b))) →
  ∀ n i mc mc', I mc → AddText_loop n text i mc = Some mc' → I mc'.
Proof.
  intros Hstep. induction n as [|n IH]; simpl; intros i mc mc' HI Hrun.
  - by simplify_eq.
  - destruct (slice text i _) as [state|] eqn:Hs; simpl in Hrun; [|done].
    destruct (index text _) as [b|] eqn:Hb; simpl in Hrun; [|done].
    eapply IH; [|done]. by eapply Hstep.
Qed.

Lemma AddText_inv (I : MarkovChain → Prop) text mc mc' :
  (∀ mc i state b, I mc →
     slice text i (int_add i (order mc)) = Some state →
     index text (int_add i (order mc)) = Some b →
     I (append_transition mc state (rune b))) →
  I mc → AddText mc text = Some mc' → I mc'.
Proof.
  intros Hstep HI. unfold AddText. case_decide.
  - by intros [= <-].
  - by apply AddText_loop_inv.
Qed.

Lemma AddTexts_inv (I : MarkovChain → Prop) texts :
  (∀ text mc i state b, I mc →
     slice text i (int_add i (order mc)) = Some state →
     index text (int_add i (order mc)) = Some b →
     I (append_transition mc state (rune b))) →
  ∀ mc mc', I mc → AddTexts mc texts = Some mc' → I mc'.
Proof.
  intros Hstep. induction texts as [|text rest IH]; simpl; intros mc mc' HI Hrun.
  - by simplify_eq.
  - destruct (AddText mc text) as [mc1|] eqn:H1; simpl in Hrun; [|done].
    eapply IH; [|done]. eapply AddText_inv; [apply Hstep | done | done].
Qed.

Lemma AddText_order mc text mc' : AddText mc text = Some mc' → order mc' = order mc.
Proof.
  intros H. by eapply (AddText_inv (λ m, order m = order mc)); [| |exact H].
Qed.

Lemma lists_nonempty_step mc state c :
  lists_nonempty mc → lists_nonempty (append_transition mc state c).
Proof.
  intros HI s l. rewrite lookup_append_transition. case_decide.
  - intros [= <-]. by destruct (successors mc state).
  - apply HI.
Qed.

Lemma faithful_step text mc i j state b :
  faithful text mc → slice text i j = Some state → index text j = Some b →
  faithful text (append_transition mc state (rune b)).
Proof.
  intros HI Hs Hb s c. rewrite successors_append_transition. case_decide as Heq.
  - subst s. intros [Hc | ->%list_elem_of_singleton]%elem_of_app; [by apply HI|].
    eexists _, b, _. split; [|done]. by eapply slice_index_split.
  - apply HI.
Qed.

(** With an order that is not negative the scan stays inside the text: it
    fails nowhere, and it records what the specification's scan does. *)
Lemma AddText_loop_observed text k :
  0 ≤ k → len text ≤ MaxInt →
  ∀ n (i : nat) mc, order mc = k → (i + Z.to_nat k + n ≤ length text)%nat →
  ∃ mc', AddText_loop n text (Z.of_nat i) mc = Some mc' ∧ order mc' = k ∧
    ∀ state, transitions mc' !! state =
      match observed text k state (seq i n) with
      | [] => transitions mc !! state
      | l => Some (successors mc state ++ l)
      end.
Proof.
  intros Hk Hmax. induction n as [|n IH]; intros i mc Hord Hlen.
  - exists mc. by repeat split.
  - simpl AddText_loop. rewrite Hord.
    rewrite int_add_exact by (unfold len, MaxInt in *; lia).
    rewrite slice_in_range by (unfold len; lia).
    destruct (index_in_range text (Z.of_nat i + k)) as (b & Hb & _); [lia | unfold len; lia |].
    rewrite Hb. simpl.
    replace (Z.of_nat i + k - Z.of_nat i) with k by lia. rewrite Nat2Z.id.
    set (w := take (Z.to_nat k) (drop i text)).
    destruct (IH (S i) (append_transition mc w (rune b))) as (mc' & Hrun & Hord' & Hlook);
      [done | lia |].
    exists mc'. replace (Z.of_nat i + 1) with (Z.of_nat (S i)) by lia.
    split; [done|]. split; [done|]. intros state. rewrite Hlook.
    apply index_Some in Hb as (_ & _ & Hb).
    replace (Z.to_nat (Z.of_nat i + k)) with (i + Z.to_nat k)%nat in Hb by lia.
    rewrite lookup_append_transition, successors_append_transition.
    simpl seq. unfold observed at 2. simpl omap. fold (observed text k state (seq (S i) n)).
    fold w. rewrite Hb. simpl. case_decide as Hw; simpl.
    + subst state. destruct (observed text k w (seq (S i) n)); [done|]. by rewrite <- app_assoc.
    + done.
Qed.

Lemma AddText_observed mc text :
  0 ≤ order mc → len text ≤ MaxInt →
  ∃ mc', AddText mc text = Some mc' ∧ order mc' = order mc ∧
    ∀ state, transitions mc' !! state =
      match observed text (order mc) state (seq 0 (Z.to_nat (len text - order mc))) with
      | [] => transitions mc !! state
      | l => Some (successors mc state ++ l)
      end.
Proof.
  intros Hk Hmax. unfold AddText. case_decide as Hle.
  - exists mc. replace (Z.to_nat (len text - order mc)) with 0%nat by lia. by repeat split.
  - rewrite int_sub_exact by (unfold MaxInt in *; lia).
    apply (AddText_loop_observed text (order mc) Hk Hmax _ 0%nat mc); [done|].
    unfold len in *. lia.
Qed.

(** With a negative order the first iteration slices [text[0:order]] and
    panics; the call returns only when the loop does not run at all. *)
Lemma AddText_negative_order mc text mc' :
  - 2 ^ 63 ≤ order mc → order mc < 0 → AddText mc text = Some mc' → mc' = mc.
Proof.
  intros Hmin Hneg. unfold AddText. case_decide; [by intros [= <-]|].
  destruct (Z.to_nat (int_sub (len text) (order mc))) as [|n]; simpl; [by intros [= <-]|].
  rewrite int_add_exact by (unfold MaxInt; lia).
  unfold slice. rewrite decide_False by lia. done.
Qed.

Example AddText_order_minus_one : AddText (NewMarkovChain (-1)) (bytes "ab") = None.
Proof. reflexivity. Qed.

Example AddText_order_zero :
  AddText (NewMarkovChain 0) (bytes "ab") =
  Some {| transitions := {[ [] := [97; 98] ]}; order := 0 |}.
Proof. reflexivity. Qed.

(** C3, as stated, fails: with order 0 and the corpus "a" the table gets the
    entry of the empty state, so it is not left empty although [order <= 0]. *)
Lemma order_zero_table_not_empty :
  ¬ (∀ (corpus : gostring) (k : Z),
       len corpus ≤ k ∨ k ≤ 0 →
       ∃ mc, AddText (NewMarkovChain k) corpus = Some mc ∧ transitions mc = ∅).
Proof.
  intros H. destruct (H (bytes "a") 0) as (mc & Hrun & Hempty); [right; lia|].
  vm_compute in Hrun. injection Hrun as <-.
  apply (f_equal (λ m : gmap (list ascii) (list Z), m !! [])) in Hempty.
  vm_compute in Hempty. discriminate.
Qed.

(** C3, amended: for every corpus and every order that is not negative,
    AddText on a new chain fails nowhere, and it leaves the table empty exactly
    when [len(corpus) <= order]. *)
Theorem AddText_degenerate (corpus : gostring) (k : Z) :
  0 ≤ k → len corpus ≤ MaxInt →
  ∃ mc, AddText (NewMarkovChain k) corpus = Some mc ∧
        (transitions mc = ∅ ↔ len corpus ≤ k).
Proof.
  intros Hk Hmax.
  destruct (AddText_observed (NewMarkovChain k) corpus Hk Hmax) as (mc & Hrun & _ & Hlook).
  exists mc. split; [done|]. simpl in Hlook. split.
  - intros Hempty. destruct (decide (len corpus ≤ k)) as [|Hgt]; [done|]. exfalso.
    specialize (Hlook (take (Z.to_nat k) (drop 0 corpus))).
    rewrite Hempty, lookup_empty in Hlook.
    destruct (Z.to_nat (len corpus - k)) as [|n] eqn:Hn; [lia|].
    simpl seq in Hlook. unfold observed in Hlook. simpl omap in Hlook.
    rewrite decide_True in Hlook by done.
    destruct (lookup_lt_is_Some_2 corpus (Z.to_nat k)) as [b Hb];
      [unfold len in *; lia|].
    rewrite Hb in Hlook. simpl in Hlook. done.
  - intros Hle. unfold AddText in Hrun. rewrite decide_True in Hrun by done.
    by injection Hrun as <-.
Qed.

Lemma AddText_degenerate_witness :
  ∃ mc, AddText (NewMarkovChain 2) (bytes "x") = Some mc ∧
        (transitions mc = ∅ ↔ len (bytes "x") ≤ 2).
Proof. apply (AddText_degenerate (bytes "x") 2); [lia | by vm_compute]. Defined.

(** C4: for [len(corpus) > order > 0] the table AddText builds on a new chain
    is the one of the specification's scan: for every start [i] from 0 to
    [len(corpus) - order - 1] the character [corpus[i+order]] is appended to the
    entry of [corpus[i : i+order]], and nothing else is recorded; "ababab" with
    order 1 gives a -> b,b,b and b -> a,a. *)
Theorem AddText_builds_spec_table :
  (∀ (corpus : gostring) (k : Z),
     0 < k → k < len corpus → len corpus ≤ MaxInt →
     ∃ mc, AddText (NewMarkovChain k) corpus = Some mc ∧
           ∀ state, transitions mc !! state = spec_entry corpus k state) ∧
  AddText (NewMarkovChain 1) (bytes "ababab") =
    Some {| transitions := {[ bytes "a" := [98; 98; 98]; bytes "b" := [97; 97] ]};
            order := 1 |}.
Proof.
  split; [|reflexivity].
  intros corpus k Hk Hlen Hmax.
  destruct (AddText_observed (NewMarkovChain k) corpus) as (mc & Hrun & _ & Hlook);
    [simpl; lia | done |].
  exists mc. split; [done|]. intros state. rewrite Hlook. unfold spec_entry. simpl.
  by destruct (observed _ _ _ _).
Qed.

Lemma AddText_builds_spec_table_witness :
  ∃ mc, AddText (NewMarkovChain 2) (bytes "abcab") = Some mc ∧
        ∀ state, transitions mc !! state = spec_entry (bytes "abcab") 2 state.
Proof.
  apply (proj1 AddText_builds_spec_table (bytes "abcab") 2); [lia | by vm_compute | by vm_compute].
Defined.

(** ** The generation loop *)

Lemma elem_of_keys mc s : s ∈ keys mc ↔ is_Some (transitions mc !! s).
Proof.
  unfold keys. rewrite list_elem_of_fmap. split.
  - intros ([s' l] & -> & Hin). apply elem_of_map_to_list in Hin. by exists l.
  - intros [l Hl]. exists (s, l). split; [done|]. by apply elem_of_map_to_list.
Qed.

Lemma length_keys mc : length (keys mc) = size (transitions mc).
Proof. unfold keys. by rewrite length_fmap, length_map_to_list. Qed.

Lemma size_nonzero mc : Z.of_nat (size (transitions mc)) ≠ 0 ↔ transitions mc ≠ ∅.
Proof.
  rewrite <- map_size_empty_iff. lia.
Qed.

Section Generate_facts.
Context (R : RandSource) (it : MapIter).

Lemma Intn_ok (g : rstate R) n :
  0 < n → ∃ idx g', Intn R g n = Some (idx, g') ∧ 0 ≤ idx ∧ idx < n.
Proof.
  intros Hn. unfold Intn. rewrite decide_False by lia.
  pose proof (Intn_range R g n Hn) as [H0 H1].
  destruct (Intn_draw R g n) as [idx g'] eqn:Hd. by exists idx, g'.
Qed.

(** With a bound of one the number drawn is zero. *)
Lemma Intn_one (g : rstate R) : ∃ g', Intn R g 1 = Some (0, g').
Proof.
  destruct (Intn_ok g 1) as (idx & g' & -> & H0 & H1); [lia|].
  exists g'. do 2 f_equal. lia.
Qed.

(** On a table that is not empty the random choice of a state succeeds and
    yields one of its keys. *)
Lemma random_state_ok mc (g : rstate R) k :
  transitions mc ≠ ∅ →
  ∃ s g', random_state R it mc g k = Some (s, g') ∧ is_Some (transitions mc !! s).
Proof.
  intros Hne. unfold random_state.
  assert (length (iter_order it k (keys mc)) = size (transitions mc)) as Hlen.
  { by rewrite (iter_perm it k (keys mc)), length_keys. }
  destruct (Intn_ok g (len (iter_order it k (keys mc)))) as (idx & g' & -> & H0 & H1).
  { unfold len. rewrite Hlen. apply size_nonzero in Hne. lia. }
  simpl. destruct (index_in_range (iter_order it k (keys mc)) idx) as (s & -> & Hin);
    [done | done |].
  simpl. exists s, g'. split; [done|].
  apply elem_of_keys. by rewrite <- (iter_perm it k (keys mc)).
Qed.

Lemma advance_total mc cur r : ∃ cur', advance mc cur r = Some cur'.
Proof.
  unfold advance. repeat case_decide; eauto.
  rewrite slice_in_range by lia. simpl. eauto.
Qed.

Lemma emit_ok mc (st : LoopState R) nextRunes :
  len nextRunes ≠ 0 →
  ∃ st' r, emit R mc st nextRunes = Some (Continue st') ∧ r ∈ nextRunes ∧
    picks st' = picks st ++ [(currentState st, r)] ∧
    result st' = result st ++ EncodeRune r ∧
    advance mc (currentState st) r = Some (currentState st').
Proof.
  intros Hne. unfold emit.
  destruct (Intn_ok (rng st) (len nextRunes)) as (idx & g & -> & H0 & H1).
  { pose proof (len_nonneg nextRunes). lia. }
  simpl. destruct (index_in_range nextRunes idx) as (r & -> & Hin); [done | done |].
  simpl. destruct (advance_total mc (currentState st) r) as [cur' Hadv].
  rewrite Hadv. simpl. eexists _, r. by repeat split.
Qed.

(** One iteration on a table that is not empty: either the loop is left
    through [break], with nothing written, after a key with an empty list was
    drawn; or one rune of the list of the cursor [s] is written, [s] being
    the cursor the iteration began with or a key drawn in its place. *)
Lemma Generate_step_spec mc (st : LoopState R) :
  transitions mc ≠ ∅ →
  (∃ st', Generate_step R it mc st = Some (Break st') ∧
     picks st' = picks st ∧ result st' = result st ∧ ¬ lists_nonempty mc) ∨
  (∃ st' s r, Generate_step R it mc st = Some (Continue st') ∧
     picks st' = picks st ++ [(s, r)] ∧ result st' = result st ++ EncodeRune r ∧
     r ∈ successors mc s ∧ advance mc s r = Some (currentState st')).
Proof.
  intros Hne. unfold Generate_step. case_decide as Hnil.
  - destruct (random_state_ok mc (rng st) (ranges st) Hne) as (s & g & -> & [l Hl]).
    simpl. case_decide as Hnil'.
    + left. eexists. split; [done|]. repeat split; try done.
      intros Hall. apply len_nil_inv in Hnil'. unfold successors in Hnil'.
      rewrite Hl in Hnil'. simpl in Hnil'. by eapply Hall.
    + right.
      edestruct (emit_ok mc) as (st' & r & -> & Hin & Hp & Hr & Ha); [exact Hnil'|].
      exists st', s, r. by repeat split.
  - right.
    destruct (emit_ok mc st _ Hnil) as (st' & r & -> & Hin & Hp & Hr & Ha).
    exists st', (currentState st), r. by repeat split.
Qed.

(** The loop on a table that is not empty: it fails nowhere; what it adds to
    the result is the encoding of the runes it logs; every rune logged is in
    the list of the cursor logged with it; it writes [n] runes unless it is
    left through [break], and it is not when no list of the table is empty. *)
Lemma Generate_loop_spec mc :
  transitions mc ≠ ∅ →
  ∀ n (st : LoopState R),
  ∃ st' brk log, Generate_loop R it n mc st = Some (st', brk) ∧
    picks st' = picks st ++ log ∧
    result st' = result st ++ written log ∧
    Forall (λ p, p.2 ∈ successors mc p.1) log ∧
    (brk = false → length log = n) ∧
    (brk = true → ¬ lists_nonempty mc).
Proof.
  intros Hne. induction n as [|n IH]; intros st.
  - exists st, false, []. simpl. rewrite !app_nil_r. by repeat split.
  - simpl Generate_loop.
    destruct (Generate_step_spec mc st Hne)
      as [(st1 & -> & Hp & Hr & Hbad) | (st1 & s & r & -> & Hp & Hr & Hin & _)]; simpl.
    + exists st1, true, []. rewrite !app_nil_r. by repeat split.
    + destruct (IH st1) as (st' & brk & log & -> & Hp' & Hr' & Hall & Hlen & Hbrk).
      exists st', brk, ((s, r) :: log). split; [done|].
      rewrite Hp', Hp, Hr', Hr, <- !app_assoc. simpl.
      change (written ((s, r) :: log)) with (EncodeRune r ++ written log).
      repeat split; try done.
      * by constructor.
      * intros Hb. simpl. by rewrite Hlen.
Qed.

End Generate_facts.

(** ** Generate *)

Section Generate_run_facts.
Context (R : RandSource) (it : MapIter).

Lemma Generate_run_nonpositive now mc length seed starter :
  length ≤ 0 →
  Generate_run R it now mc length seed starter =
    Some {| output := []; emitted := []; reseeds := 0; stuck := false |}.
Proof. intros. unfold Generate_run. by rewrite decide_True. Qed.

(** The call past its early returns: the table is not empty and the starter
    is shorter than [length]. It fails only where the starter is sliced for
    the first cursor; otherwise the output is the starter followed by the
    encoding of the runes logged. *)
Lemma Generate_run_walk now mc length seed starter :
  0 < length → transitions mc ≠ ∅ → len starter < length →
  (Generate_run R it now mc length seed starter = None ∧
     len starter >= order mc ∧
     slice starter (int_sub (len starter) (order mc)) (len starter) = None) ∨
  (∃ run, Generate_run R it now mc length seed starter = Some run ∧
     output run = starter ++ written (emitted run) ∧
     Forall (λ p, p.2 ∈ successors mc p.1) (emitted run) ∧
     (stuck run = false →
        Datatypes.length (emitted run) = Z.to_nat (int_sub length (len starter))) ∧
     (stuck run = true → ¬ lists_nonempty mc)).
Proof.
  intros Hpos Hne Hshort. unfold Generate_run.
  rewrite decide_False by lia.
  rewrite (decide_False (P := Z.of_nat (size (transitions mc)) = 0))
    by by apply size_nonzero.
  rewrite (decide_False (P := len starter >= length)) by lia.
  set (g := if decide (seed < 0) then Seed R now else Seed R seed).
  assert (∀ cur g' k,
    ∃ run, ('(st, brk) ← Generate_loop R it (Z.to_nat (int_sub length (len starter))) mc
               {| rng := g'; ranges := k; currentState := cur; result := starter;
                  picks := [] |};
             Some {| output := result st; emitted := picks st; reseeds := ranges st;
                     stuck := brk |}) = Some run ∧
      output run = starter ++ written (emitted run) ∧
      Forall (λ p, p.2 ∈ successors mc p.1) (emitted run) ∧
      (stuck run = false →
         Datatypes.length (emitted run) = Z.to_nat (int_sub length (len starter))) ∧
      (stuck run = true → ¬ lists_nonempty mc)) as Hloop.
  { intros cur g' k.
    edestruct (Generate_loop_spec R it mc Hne) as (st' & brk & log & -> & Hp & Hr & Hall & Hn & Hb).
    simpl in *. eexists. split; [done|]. simpl. rewrite Hp, Hr. by repeat split. }
  case_decide as Hord.
  - destruct (slice starter _ _) as [cur|] eqn:Hs; simpl.
    + right. apply Hloop.
    + left. by repeat split.
  - right. destruct (random_state_ok R it mc g 0 Hne) as (s & g' & -> & _). simpl.
    apply Hloop.
Qed.

(** The first cursor can be sliced off the starter when the order is not
    negative. *)
Lemma first_cursor_ok mc (starter : gostring) :
  0 ≤ order mc → len starter ≤ MaxInt → len starter >= order mc →
  is_Some (slice starter (int_sub (len starter) (order mc)) (len starter)).
Proof.
  intros H0 Hmax Hge.
  rewrite int_sub_exact by (unfold MaxInt in *; lia).
  rewrite slice_in_range by lia. done.
Qed.

(** The early returns: a length that is not positive, an empty table, or a
    starter that fills the length. The starter, cut to [length], is returned
    and the loop does not run. *)
Lemma Generate_run_no_walk now mc length seed starter :
  length ≤ 0 ∨ transitions mc = ∅ ∨ length ≤ len starter →
  Generate_run R it now mc length seed starter =
    Some {| output := take (Z.to_nat length) starter; emitted := []; reseeds := 0;
            stuck := false |}.
Proof.
  intros Hcase. unfold Generate_run. case_decide as Hpos.
  { by replace (Z.to_nat length) with 0%nat by lia. }
  case_decide as Hsize.
  - case_decide as Hlong.
    + by rewrite slice_prefix by lia.
    + rewrite take_ge by (unfold len in Hlong; lia). done.
  - apply size_nonzero in Hsize. destruct Hcase as [?|[?|Hlong]]; [lia | done |].
    rewrite decide_True by lia. by rewrite slice_prefix by lia.
Qed.

(** Whatever the call returns is the starter, cut to [length], followed by the
    encoding of the runes logged, each of them taken from the list of the
    cursor logged with it. *)
Lemma Generate_run_output now mc length seed starter run :
  Generate_run R it now mc length seed starter = Some run →
  output run = take (Z.to_nat length) starter ++ written (emitted run) ∧
  Forall (λ p, p.2 ∈ successors mc p.1) (emitted run).
Proof.
  intros Hrun.
  destruct (decide (length ≤ 0 ∨ transitions mc = ∅ ∨ length ≤ len starter))
    as [Hcase|Hwalk].
  - rewrite Generate_run_no_walk in Hrun by done. injection Hrun as <-. simpl.
    by rewrite app_nil_r.
  - destruct (Generate_run_walk now mc length seed starter)
      as [(Hnone & _) | (run' & Hrun' & Hout & Hall & _)]; [lia | tauto | lia | congruence |].
    assert (run' = run) as -> by congruence.
    rewrite take_ge by (unfold len in Hwalk; lia). done.
Qed.

End Generate_run_facts.

(** C6: with an empty table and a positive length, Generate returns the
    starter cut to at most [length] characters, the whole starter when
    [len(starter) <= length], and the loop does not run: nothing is drawn and
    nothing is logged. *)
Theorem Generate_empty_table (R : RandSource) (it : MapIter) now mc length seed starter :
  0 < length → transitions mc = ∅ →
  Generate_run R it now mc length seed starter =
    Some {| output := take (Z.to_nat length) starter; emitted := []; reseeds := 0;
            stuck := false |} ∧
  (len starter ≤ length → Generate R it now mc length seed starter = Some starter).
Proof.
  intros Hpos Hempty. unfold Generate.
  rewrite Generate_run_no_walk by auto. simpl. split; [done|].
  intros Hshort. by rewrite take_ge by (unfold len in Hshort; lia).
Qed.

Lemma Generate_empty_table_witness :
  Generate_run lcg iter_fwd 0 (NewMarkovChain 2) 5 1 (bytes "hi") =
    Some {| output := take (Z.to_nat 5) (bytes "hi"); emitted := []; reseeds := 0;
            stuck := false |} ∧
  (len (bytes "hi") ≤ 5 →
   Generate lcg iter_fwd 0 (NewMarkovChain 2) 5 1 (bytes "hi") = Some (bytes "hi")).
Proof.
  apply (Generate_empty_table lcg iter_fwd 0 (NewMarkovChain 2) 5 1 (bytes "hi"));
    [lia | reflexivity].
Defined.

(** C7: for every table, order and seed and every positive length, when
    [len(starter) >= length] Generate returns the first [length] characters of
    the starter. *)
Theorem Generate_starter_truncation (R : RandSource) (it : MapIter) now mc length seed
    starter :
  0 < length → length ≤ len starter →
  Generate R it now mc length seed starter = Some (take (Z.to_nat length) starter).
Proof.
  intros Hpos Hlong. unfold Generate. by rewrite Generate_run_no_walk by auto.
Qed.

Lemma Generate_starter_truncation_witness :
  Generate lcg iter_fwd 0 ababab 3 1 (bytes "hello") =
    Some (take (Z.to_nat 3) (bytes "hello")).
Proof.
  apply (Generate_starter_truncation lcg iter_fwd 0 ababab 3 1 (bytes "hello"));
    [lia | by vm_compute].
Defined.

(** C8: when [len(starter) < length], the string Generate returns begins with
    the starter, for every table, order and seed; and it does return one when
    the order is not negative. *)
Theorem Generate_starter_prefix (R : RandSource) (it : MapIter) now mc length seed starter :
  len starter < length →
  (∀ out, Generate R it now mc length seed starter = Some out →
     take (Z.to_nat (len starter)) out = starter) ∧
  (0 ≤ order mc → len starter ≤ MaxInt →
     ∃ out, Generate R it now mc length seed starter = Some out).
Proof.
  intros Hshort. pose proof (len_nonneg starter) as Hnn. unfold Generate.
  destruct (decide (transitions mc = ∅)) as [Hempty|Hne].
  - rewrite Generate_run_no_walk by auto. simpl. split; [|eauto].
    intros out [= <-]. rewrite take_take. unfold len. rewrite Nat2Z.id.
    rewrite firstn_all2; [done | unfold len in *; lia].
  - destruct (Generate_run_walk R it now mc length seed starter)
      as [(Hnone & Hge & Hslice) | (run & Hrun & Hout & _)]; [lia | done | done | |].
    + rewrite Hnone. simpl. split; [done|].
      intros H0 Hmax. destruct (first_cursor_ok mc starter H0 Hmax Hge) as [cur Hcur].
      congruence.
    + rewrite Hrun. simpl. split; [|eauto].
      intros out [= <-]. rewrite Hout. unfold len. rewrite Nat2Z.id.
      by rewrite take_app_length.
Qed.

Lemma Generate_starter_prefix_witness :
  (∀ out, Generate lcg iter_fwd 0 ababab 6 7 (bytes "xa") = Some out →
     take (Z.to_nat (len (bytes "xa"))) out = bytes "xa") ∧
  (0 ≤ order ababab → len (bytes "xa") ≤ MaxInt →
     ∃ out, Generate lcg iter_fwd 0 ababab 6 7 (bytes "xa") = Some out).
Proof.
  apply (Generate_starter_prefix lcg iter_fwd 0 ababab 6 7 (bytes "xa")). by vm_compute.
Defined.

(** Fidelity at the level of runes: in the table AddText builds from a
    corpus, every rune of the list of a state is the value of a byte that
    occurs in the corpus right after an occurrence of that state, and every
    rune Generate hands to [WriteRune] was taken from the list of the cursor
    of that moment. The bytes that reach the output are the encoding of
    those runes, not the bytes of the corpus. *)
Theorem transition_fidelity (R : RandSource) (it : MapIter) corpus k mc :
  AddText (NewMarkovChain k) corpus = Some mc →
  (∀ s c, c ∈ successors mc s → follows corpus s c) ∧
  (∀ now length seed starter run,
     Generate_run R it now mc length seed starter = Some run →
     output run = take (Z.to_nat length) starter ++ written (emitted run) ∧
     ∀ s c, (s, c) ∈ emitted run → follows corpus s c).
Proof.
  intros Hbuild.
  assert (faithful corpus mc) as Hfaith.
  { eapply (AddText_inv (faithful corpus)); [| |exact Hbuild].
    - intros m i state b HI Hs Hb. by eapply faithful_step.
    - intros s c. unfold successors. simpl. rewrite lookup_empty. simpl.
      by intros ?%elem_of_nil. }
  split; [exact Hfaith|].
  intros now length seed starter run Hrun.
  destruct (Generate_run_output R it now mc length seed starter run Hrun) as [Hout Hall].
  split; [done|]. intros s c Hin. apply Hfaith.
  rewrite Forall_forall in Hall. by apply (Hall (s, c)).
Qed.

Lemma transition_fidelity_witness :
  (∀ s c, c ∈ successors ababab s → follows (bytes "ababab") s c) ∧
  (∀ now length seed starter run,
     Generate_run lcg iter_fwd now ababab length seed starter = Some run →
     output run = take (Z.to_nat length) starter ++ written (emitted run) ∧
     ∀ s c, (s, c) ∈ emitted run → follows (bytes "ababab") s c).
Proof. apply (transition_fidelity lcg iter_fwd (bytes "ababab") 1 ababab). reflexivity. Defined.

(** A chain whose order is negative stays as it is under AddText. *)
Lemma AddTexts_negative_order texts :
  ∀ mc mc', - 2 ^ 63 ≤ order mc → order mc < 0 → AddTexts mc texts = Some mc' → mc' = mc.
Proof.
  induction texts as [|text rest IH]; simpl; intros mc mc' Hmin Hneg Hrun.
  - by simplify_eq.
  - destruct (AddText mc text) as [mc1|] eqn:H1; simpl in Hrun; [|done].
    apply AddText_negative_order in H1 as ->; [|done..]. by apply IH.
Qed.

Lemma AddTexts_order texts : ∀ mc mc', AddTexts mc texts = Some mc' → order mc' = order mc.
Proof.
  intros mc mc' H.
  by eapply (AddTexts_inv (λ m, order m = order mc)); [| |exact H].
Qed.

(** C10: every list AddText puts in the table has at least one character,
    after any sequence of AddText calls on a new chain; so on such a chain
    Generate returns without taking the [break] of its loop. *)
Theorem AddText_lists_nonempty (R : RandSource) (it : MapIter) k texts mc now length seed
    starter :
  - 2 ^ 63 ≤ k → AddTexts (NewMarkovChain k) texts = Some mc → len starter ≤ MaxInt →
  (∀ s l, transitions mc !! s = Some l → l ≠ []) ∧
  ∃ run, Generate_run R it now mc length seed starter = Some run ∧ stuck run = false.
Proof.
  intros Hmin Hbuild Hmax.
  assert (lists_nonempty mc) as Hall.
  { eapply (AddTexts_inv lists_nonempty); [| |exact Hbuild].
    - intros _ m _ state b HI _ _. by apply lists_nonempty_step.
    - intros s l. simpl. by rewrite lookup_empty. }
  split; [exact Hall|].
  destruct (decide (length ≤ 0 ∨ transitions mc = ∅ ∨ length ≤ len starter))
    as [Hcase|Hwalk].
  { eexists. split; [by apply Generate_run_no_walk | done]. }
  assert (0 ≤ order mc) as Hord.
  { destruct (decide (0 ≤ order mc)) as [|Hneg]; [done|]. exfalso.
    rewrite (AddTexts_order _ _ _ Hbuild) in Hneg. simpl in Hneg.
    apply AddTexts_negative_order in Hbuild; [|simpl; lia..].
    subst mc. simpl in Hwalk. tauto. }
  destruct (Generate_run_walk R it now mc length seed starter)
    as [(_ & Hge & Hnone) | (run & Hrun & _ & _ & _ & Hstuck)]; [lia | tauto | lia | |].
  - destruct (first_cursor_ok mc starter Hord Hmax Hge) as [cur Hcur]. congruence.
  - exists run. split; [done|]. destruct (stuck run); [|done]. by destruct Hstuck.
Qed.

Lemma AddText_lists_nonempty_witness :
  (∀ s l, transitions ababab !! s = Some l → l ≠ []) ∧
  ∃ run, Generate_run lcg iter_fwd 0 ababab 6 7 (bytes "x") = Some run ∧ stuck run = false.
Proof.
  apply (AddText_lists_nonempty lcg iter_fwd 1 [bytes "abab"; bytes "bab"] ababab 0 6 7
           (bytes "x")); [lia | reflexivity | by vm_compute].
Defined.

(** ** Runs on small chains *)

(** An iteration whose cursor has a list of one rune writes that rune. *)
Lemma Generate_step_single (R : RandSource) (it : MapIter) mc (st : LoopState R) r :
  successors mc (currentState st) = [r] →
  ∃ g', Generate_step R it mc st =
    (cur' ← advance mc (currentState st) r;
     Some (Continue {| rng := g'; ranges := ranges st; currentState := cur';
                       result := result st ++ EncodeRune r;
                       picks := picks st ++ [(currentState st, r)] |})).
Proof.
  intros Hone. unfold Generate_step. rewrite Hone.
  rewrite decide_False by done. unfold emit.
  change (len [r]) with 1. destruct (Intn_one R (rng st)) as [g' ->].
  by exists g'.
Qed.

Example AddText_aba : AddText (NewMarkovChain 1) (bytes "aba") = Some aba.
Proof. reflexivity. Qed.

Lemma Generate_aba_first (R : RandSource) (it : MapIter) now seed s0 s1 r0 r1 :
  iter_order it 0 (keys aba) = [s0; s1] →
  successors aba s0 = [r0] → successors aba s1 = [r1] →
  Generate R it now aba 1 seed [] =
    Some (EncodeRune (if decide ((Intn_draw R (if decide (seed < 0) then Seed R now
                                                else Seed R seed) 2).1 = 0)
                      then r0 else r1)).
Proof.
  intros Hkeys Hs0 Hs1. unfold Generate, Generate_run.
  rewrite decide_False by lia.
  rewrite (decide_False (P := Z.of_nat (size (transitions aba)) = 0)) by by vm_compute.
  rewrite (decide_False (P := len [] >= 1)) by by vm_compute.
  rewrite (decide_False (P := len [] >= order aba)) by by vm_compute.
  set (g := if decide (seed < 0) then Seed R now else Seed R seed).
  unfold random_state. rewrite Hkeys. change (len [s0; s1]) with 2.
  unfold Intn. rewrite decide_False by lia.
  pose proof (Intn_range R g 2) as Hrange.
  destruct (Intn_draw R g 2) as [idx g'] eqn:Hd. simpl in Hrange. simpl.
  change (Z.to_nat (int_sub 1 (len []))) with 1%nat.
  assert (idx = 0 ∨ idx = 1) as [-> | ->] by lia.
  - change (index [s0; s1] 0) with (Some s0). simpl.
    edestruct (Generate_step_single R it aba) as [g'' ->]; [exact Hs0|]. done.
  - change (index [s0; s1] 1) with (Some s1). simpl.
    edestruct (Generate_step_single R it aba) as [g'' ->]; [exact Hs1|]. done.
Qed.

(** Without a negative seed the reading of the clock is not used. *)
Lemma Generate_ignores_clock (R : RandSource) (it : MapIter) now1 now2 mc length seed starter :
  0 ≤ seed →
  Generate R it now1 mc length seed starter = Generate R it now2 mc length seed starter.
Proof.
  intros Hseed. unfold Generate, Generate_run.
  destruct (decide (seed < 0)); [lia | done].
Qed.

(** C1, at corpus "aba", order 1, length 1, an empty starter and any seed:
    the output depends on the order in which [range] yields the two keys. With
    one order Generate returns "a" and with the opposite order "b" (or the
    other way round, by the number [rand.Intn(2)] draws for the seed), so two
    calls with identical arguments and seed need not return the same string. *)
Theorem Generate_depends_on_map_order (R : RandSource) (now seed : Z) :
  (Generate R iter_fwd now aba 1 seed [] = Some (bytes "a") ∧
   Generate R iter_rev now aba 1 seed [] = Some (bytes "b")) ∨
  (Generate R iter_fwd now aba 1 seed [] = Some (bytes "b") ∧
   Generate R iter_rev now aba 1 seed [] = Some (bytes "a")).
Proof.
  rewrite (Generate_aba_first R iter_fwd now seed (bytes "b") (bytes "a") 97 98)
    by reflexivity.
  rewrite (Generate_aba_first R iter_rev now seed (bytes "a") (bytes "b") 98 97)
    by reflexivity.
  case_decide; [left | right]; by split.
Qed.

(** The claim of C1 does not hold of the code. *)
Lemma Generate_not_reproducible :
  ¬ (∀ (R : RandSource) (it1 it2 : MapIter) (now1 now2 : Z) mc length seed starter,
       0 ≤ seed →
       Generate R it1 now1 mc length seed starter =
       Generate R it2 now2 mc length seed starter).
Proof.
  intros H. specialize (H lcg iter_fwd iter_rev 0 0 aba 1 0 []). vm_compute in H.
  specialize (H ltac:(discriminate)). discriminate.
Qed.

(** ** Bytes above 0x7F *)

Example AddText_eacute : AddText (NewMarkovChain 1) (eacute ++ eacute) = Some eacute_chain.
Proof. reflexivity. Qed.

(** C2, at the corpus C3 A9 C3 A9, order 1, length 3 and the starter C3 A9,
    for any seed: the table is not empty, the cursor A9 is a key, no state is
    drawn and the loop is not left early; yet Generate returns the four bytes
    C3 A9 C3 83, not three. The byte C3 that follows A9 in the corpus is kept
    as the rune U+00C3 and written in two bytes. *)
Theorem Generate_length_non_ascii (R : RandSource) (it : MapIter) (now seed : Z) :
  Generate_run R it now eacute_chain 3 seed eacute =
    Some {| output := [byte 195; byte 169; byte 195; byte 131];
            emitted := [([byte 169], 195)]; reseeds := 0; stuck := false |}.
Proof.
  unfold Generate_run.
  rewrite decide_False by lia.
  rewrite (decide_False (P := Z.of_nat (size (transitions eacute_chain)) = 0))
    by by vm_compute.
  rewrite (decide_False (P := len eacute >= 3)) by by vm_compute.
  rewrite (decide_True (P := len eacute >= order eacute_chain)) by by vm_compute.
  change (slice eacute (int_sub (len eacute) (order eacute_chain)) (len eacute))
    with (Some [byte 169]).
  change (Z.to_nat (int_sub 3 (len eacute))) with 1%nat. simpl.
  edestruct (Generate_step_single R it eacute_chain) as [g' ->]; [reflexivity|]. done.
Qed.

(** C5, at the corpus C3 A9 C3 A9, order 1, length 3 and the starter C3 A9,
    for any seed: the only byte that follows the state A9 in the corpus is
    C3, yet what Generate writes while the cursor is A9 is the two bytes
    C3 83. The byte 83 occurs nowhere in the corpus: the character emitted
    after A9 is not one that followed A9 there. *)
Theorem Generate_writes_byte_not_in_corpus (R : RandSource) (it : MapIter) (now seed : Z) :
  AddText (NewMarkovChain 1) (eacute ++ eacute) = Some eacute_chain ∧
  Generate_run R it now eacute_chain 3 seed eacute =
    Some {| output := eacute ++ [byte 195; byte 131];
            emitted := [([byte 169], 195)]; reseeds := 0; stuck := false |} ∧
  (∀ before b after, eacute ++ eacute = before ++ [byte 169] ++ b :: after → b = byte 195) ∧
  byte 131 ∉ eacute ++ eacute.
Proof.
  split; [reflexivity|]. split.
  - unfold Generate_run.
    rewrite decide_False by lia.
    rewrite (decide_False (P := Z.of_nat (size (transitions eacute_chain)) = 0))
      by by vm_compute.
    rewrite (decide_False (P := len eacute >= 3)) by by vm_compute.
    rewrite (decide_True (P := len eacute >= order eacute_chain)) by by vm_compute.
    change (slice eacute (int_sub (len eacute) (order eacute_chain)) (len eacute))
      with (Some [byte 169]).
    change (Z.to_nat (int_sub 3 (len eacute))) with 1%nat. simpl.
    edestruct (Generate_step_single R it eacute_chain) as [g' ->]; [reflexivity|]. done.
  - split.
    + intros before b after Hsplit.
      change (eacute ++ eacute) with [byte 195; byte 169; byte 195; byte 169] in Hsplit.
      destruct before as [|x0 [|x1 [|x2 [|x3 [|x4 before]]]]]; simpl in Hsplit;
        simplify_eq; done.
    + change (eacute ++ eacute) with [byte 195; byte 169; byte 195; byte 169].
      intros H. repeat (apply elem_of_cons in H as [H|H]; [discriminate|]).
      by apply elem_of_nil in H.
Qed.

Lemma written_ascii mc log :
  table_ascii mc → Forall (λ p, p.2 ∈ successors mc p.1) log →
  len (written log) = len log.
Proof.
  intros Hascii. induction 1 as [|[s c] log Hin _ IH]; [done|].
  change (written ((s, c) :: log)) with (EncodeRune c ++ written log).
  destruct (Hascii s c Hin) as [H0 H1].
  rewrite EncodeRune_ascii by done. rewrite len_app, IH. unfold len. simpl. lia.
Qed.

Lemma Generate_length_ascii (R : RandSource) (it : MapIter) now mc length seed starter run :
  transitions mc ≠ ∅ → table_ascii mc → 0 ≤ length → length ≤ MaxInt →
  Generate_run R it now mc length seed starter = Some run → stuck run = false →
  len (output run) = length.
Proof.
  intros Hne Hascii H0 Hmax Hrun Hstuck. pose proof (len_nonneg starter) as Hnn.
  destruct (decide (length ≤ 0 ∨ transitions mc = ∅ ∨ length ≤ len starter))
    as [Hcase|Hwalk].
  - rewrite Generate_run_no_walk in Hrun by done. injection Hrun as <-. simpl.
    unfold len in *. rewrite length_take. destruct Hcase as [?|[?|?]]; [lia | done | lia].
  - destruct (Generate_run_walk R it now mc length seed starter)
      as [(Hnone & _) | (run' & Hrun' & Hout & Hall & Hlen & _)]; [lia | done | lia | congruence |].
    assert (run' = run) as -> by congruence.
    rewrite Hout, len_app, (written_ascii mc) by done.
    unfold len at 2. rewrite (Hlen Hstuck).
    rewrite int_sub_exact by (unfold MaxInt in *; lia). lia.
Qed.

(** ** The cursor *)

(** An update of a cursor of [order] bytes, for an order of at least one:
    one byte is dropped and the encoding of the rune is added. *)
Lemma advance_length mc cur r cur' :
  1 ≤ order mc → len cur = order mc → advance mc cur r = Some cur' →
  len cur' = order mc - 1 + len (EncodeRune r).
Proof.
  intros Hord Hlen. unfold advance. case_decide as Hgt.
  - rewrite decide_True by lia.
    destruct (slice cur 1 (len cur)) as [rest|] eqn:Hs; simpl; [|done].
    intros [= <-]. apply slice_Some in Hs as (_ & _ & _ & _ & Hrest).
    rewrite len_app. lia.
  - intros [= <-]. lia.
Qed.

(** So the cursor keeps its length when the rune is below 0x80. *)
Lemma advance_length_ascii mc cur r :
  1 ≤ order mc → len cur = order mc → 0 ≤ r → r ≤ 127 →
  ∃ cur', advance mc cur r = Some cur' ∧ len cur' = order mc.
Proof.
  intros Hord Hlen H0 H1. destruct (advance_total mc cur r) as [cur' Hadv].
  exists cur'. split; [done|].
  rewrite (advance_length mc cur r cur') by done.
  rewrite EncodeRune_ascii by done. unfold len. simpl. lia.
Qed.

(** C9, on the chain of the corpus C3 A9 C3 A9 with order 1: from the cursor
    A9, of one byte, the iteration writes the rune U+00C3 and the cursor
    becomes the two bytes C3 83: it is one byte longer than the order. *)
Theorem cursor_grows_non_ascii (R : RandSource) (it : MapIter) (g : rstate R) k res log :
  ∃ st', Generate_step R it eacute_chain
           {| rng := g; ranges := k; currentState := [byte 169]; result := res;
              picks := log |} = Some (Continue st') ∧
         picks st' = log ++ [([byte 169], 195)] ∧
         currentState st' = [byte 195; byte 131] ∧
         len (currentState st') = order eacute_chain + 1.
Proof.
  edestruct (Generate_step_single R it eacute_chain) as [g' ->]; [reflexivity|].
  simpl. eexists. split; [done|]. by repeat split.
Qed.

(** * Further properties of the code *)

(** ** One iteration, case by case *)

Section Generate_step_facts.
Context (R : RandSource) (it : MapIter).

(** An iteration on a table that is not empty. When the list of the cursor is
    not empty, no key is drawn and a rune of that list is written. When it is
    empty, a key [s] is drawn: the loop is left if the list of [s] is empty,
    and a rune of the list of [s] is written otherwise. *)
Lemma Generate_step_cases mc (st : LoopState R) :
  transitions mc ≠ ∅ →
  (successors mc (currentState st) ≠ [] ∧
   ∃ st' r, Generate_step R it mc st = Some (Continue st') ∧
     r ∈ successors mc (currentState st) ∧
     picks st' = picks st ++ [(currentState st, r)] ∧
     result st' = result st ++ EncodeRune r ∧
     advance mc (currentState st) r = Some (currentState st') ∧
     ranges st' = ranges st) ∨
  (successors mc (currentState st) = [] ∧
   ∃ s, is_Some (transitions mc !! s) ∧
     ((successors mc s = [] ∧
       ∃ st', Generate_step R it mc st = Some (Break st') ∧
         picks st' = picks st ∧ result st' = result st ∧
         currentState st' = s ∧ ranges st' = S (ranges st)) ∨
      (∃ st' r, Generate_step R it mc st = Some (Continue st') ∧
         r ∈ successors mc s ∧
         picks st' = picks st ++ [(s, r)] ∧
         result st' = result st ++ EncodeRune r ∧
         advance mc s r = Some (currentState st') ∧
         ranges st' = S (ranges st)))).
Proof.
  intros Hne. unfold Generate_step. case_decide as Hnil.
  - right. split; [by apply len_nil_inv|].
    destruct (random_state_ok R it mc (rng st) (ranges st) Hne) as (s & g & -> & Hs).
    exists s. split; [done|]. simpl. case_decide as Hnil'.
    + left. split; [by apply len_nil_inv|]. eexists. by repeat split.
    + right. unfold emit.
      destruct (Intn_ok R g (len (successors mc s))) as (idx & g' & Hd & H0 & H1).
      { pose proof (len_nonneg (successors mc s)). lia. }
      simpl. rewrite Hd. simpl.
      destruct (index_in_range (successors mc s) idx) as (r & -> & Hin); [done..|].
      simpl. destruct (advance_total mc s r) as [cur' Hadv]. rewrite Hadv. simpl.
      eexists _, r. by repeat split.
  - left. split; [intros Heq; by rewrite Heq in Hnil|]. unfold emit.
    destruct (Intn_ok R (rng st) (len (successors mc (currentState st))))
      as (idx & g' & -> & H0 & H1).
    { pose proof (len_nonneg (successors mc (currentState st))). lia. }
    simpl.
    destruct (index_in_range (successors mc (currentState st)) idx) as (r & -> & Hin);
      [done..|].
    simpl. destruct (advance_total mc (currentState st) r) as [cur' Hadv].
    rewrite Hadv. simpl. eexists _, r. by repeat split.
Qed.

(** A property that every iteration preserves holds when the loop is left. *)
Lemma Generate_loop_inv (I : LoopState R → Prop) mc :
  (∀ st st', I st → Generate_step R it mc st = Some (Continue st') → I st') →
  (∀ st st', I st → Generate_step R it mc st = Some (Break st') → I st') →
  ∀ n st st' brk, I st → Generate_loop R it n mc st = Some (st', brk) → I st'.
Proof.
  intros Hcont Hbrk. induction n as [|n IH]; simpl; intros st st' brk HI Hrun.
  - by simplify_eq.
  - destruct (Generate_step R it mc st) as [[st1|st1]|] eqn:Hstep; simpl in Hrun; [| |done].
    + eapply IH; [|done]. by eapply Hcont.
    + simplify_eq. by eapply Hbrk.
Qed.

End Generate_step_facts.

(** ** What AddText keeps and what it adds *)

(** X1: AddText, called any number of times, keeps every entry of the table
    and only extends lists at their end; the order is not changed. *)
Theorem AddTexts_only_appends mc texts mc' :
  AddTexts mc texts = Some mc' →
  order mc' = order mc ∧
  ∀ s l, transitions mc !! s = Some l → ∃ l', transitions mc' !! s = Some (l ++ l').
Proof.
  intros Hrun. split; [by eapply AddTexts_order|].
  eapply (AddTexts_inv
    (λ m, ∀ s l, transitions mc !! s = Some l → ∃ l', transitions m !! s = Some (l ++ l')));
    [| |exact Hrun].
  - intros _ m _ state b HI _ _ s l Hl. destruct (HI s l Hl) as [l' Hl'].
    rewrite lookup_append_transition. case_decide as Heq.
    + subst state. exists (l' ++ [rune b]). unfold successors. rewrite Hl'. simpl.
      by rewrite app_assoc.
    + by exists l'.
  - intros s l Hl. exists []. by rewrite app_nil_r.
Qed.

Lemma AddTexts_only_appends_witness :
  order ababab = order aba ∧
  ∀ s l, transitions aba !! s = Some l → ∃ l', transitions ababab !! s = Some (l ++ l').
Proof. apply (AddTexts_only_appends aba [bytes "bab"; bytes "ab"] ababab). reflexivity. Defined.

Lemma observed_app text k state starts1 starts2 :
  observed text k state (starts1 ++ starts2) =
  observed text k state starts1 ++ observed text k state starts2.
Proof. unfold observed. apply omap_app. Qed.

(** A character was recorded for [state] only at a start whose window is
    [state] and which has a byte after the window. *)
Lemma observed_elem text k state starts c :
  c ∈ observed text k state starts →
  ∃ i b, i ∈ starts ∧ take (Z.to_nat k) (drop i text) = state ∧
         text !! (i + Z.to_nat k)%nat = Some b ∧ c = rune b.
Proof.
  unfold observed. rewrite list_elem_of_omap. intros (i & Hi & Hc).
  case_decide as Hw; [|done].
  destruct (text !! (i + Z.to_nat k)%nat) as [b|] eqn:Hb; simpl in Hc; [|done].
  exists i, b. by simplify_eq.
Qed.

(** The scans of several texts, one call of AddText after the other. *)
Lemma AddTexts_scan mc texts :
  0 ≤ order mc → Forall (λ t : gostring, len t ≤ MaxInt) texts →
  ∃ mc', AddTexts mc texts = Some mc' ∧ order mc' = order mc ∧
    ∀ state, transitions mc' !! state =
      match observed_all texts (order mc) state with
      | [] => transitions mc !! state
      | l => Some (successors mc state ++ l)
      end.
Proof.
  intros Hk Hvalid. revert mc Hk.
  induction Hvalid as [|text rest Hmax _ IH]; intros mc Hk.
  - exists mc. by repeat split.
  - destruct (AddText_observed mc text Hk Hmax) as (mc1 & Hrun1 & Hord1 & Hlook1).
    destruct (IH mc1) as (mc' & Hrun & Hord & Hlook); [by rewrite Hord1|].
    exists mc'. simpl. rewrite Hrun1. simpl. split; [done|]. split; [congruence|].
    intros state. rewrite Hlook, Hord1.
    change (observed_all (text :: rest) (order mc) state)
      with (observed text (order mc) state (seq 0 (Z.to_nat (len text - order mc))) ++
            observed_all rest (order mc) state).
    assert (successors mc1 state =
            successors mc state ++
            observed text (order mc) state (seq 0 (Z.to_nat (len text - order mc)))) as Hs.
    { unfold successors at 1. rewrite Hlook1.
      destruct (observed text _ _ _); [|done]. by rewrite app_nil_r. }
    rewrite Hs, Hlook1.
    generalize (observed_all rest (order mc) state) as more.
    generalize (observed text (order mc) state (seq 0 (Z.to_nat (len text - order mc))))
      as first.
    intros [|c l] [|c' l']; simpl; rewrite ?app_nil_r, <- ?app_assoc; done.
Qed.

(** X2: calls of AddText compose. On a chain whose order is not negative
    they fail nowhere, and the list of every state is its old list followed
    by what the scan of each text records for it, text after text; a state
    gets an entry exactly when it had one or a scan records something for it.
    No window across the end of one text and the start of the next is
    recorded. *)
Theorem AddTexts_observed mc texts :
  0 ≤ order mc → Forall (λ t : gostring, len t ≤ MaxInt) texts →
  ∃ mc', AddTexts mc texts = Some mc' ∧ order mc' = order mc ∧
    ∀ state, transitions mc' !! state =
      match observed_all texts (order mc) state with
      | [] => transitions mc !! state
      | l => Some (successors mc state ++ l)
      end.
Proof. apply AddTexts_scan. Qed.

Lemma AddTexts_observed_witness :
  ∃ mc', AddTexts aba [bytes "bab"; bytes "ab"] = Some mc' ∧ order mc' = order aba ∧
    ∀ state, transitions mc' !! state =
      match observed_all [bytes "bab"; bytes "ab"] (order aba) state with
      | [] => transitions aba !! state
      | l => Some (successors aba state ++ l)
      end.
Proof.
  apply (AddTexts_observed aba [bytes "bab"; bytes "ab"]); [by vm_compute|].
  repeat constructor; by vm_compute.
Defined.

(** Where a key of the table comes from: it was a key before, or it is a
    window of [order] bytes of one of the texts, with a byte after it. *)
Lemma AddTexts_key_origin mc texts mc' s :
  0 ≤ order mc → Forall (λ t : gostring, len t ≤ MaxInt) texts →
  AddTexts mc texts = Some mc' → is_Some (transitions mc' !! s) →
  is_Some (transitions mc !! s) ∨
  (len s = order mc ∧
   ∃ t before after, t ∈ texts ∧ t = before ++ s ++ after ∧ after ≠ []).
Proof.
  intros Hk Hvalid Hrun Hs.
  destruct (AddTexts_scan mc texts Hk Hvalid) as (mc2 & Hrun2 & Hord & Hlook).
  assert (mc2 = mc') as -> by congruence.
  rewrite Hlook in Hs.
  destruct (observed_all texts (order mc) s) as [|c l] eqn:Hobs; [by left|]. right.
  assert (c ∈ observed_all texts (order mc) s) as Hc by (rewrite Hobs; left).
  unfold observed_all in Hc. apply list_elem_of_In, in_concat in Hc as (cs & Hcs & Hc).
  apply list_elem_of_In, list_elem_of_fmap in Hcs as (t & -> & Ht).
  apply list_elem_of_In in Hc.
  apply observed_elem in Hc as (i & b & _ & <- & Hb & _).
  pose proof (lookup_lt_Some _ _ _ Hb) as Hlt. split.
  - unfold len. rewrite length_take, length_drop. lia.
  - exists t, (take i t), (drop (Z.to_nat (order mc)) (drop i t)). split; [done|]. split.
    + by rewrite take_drop, take_drop.
    + rewrite drop_drop. intros Hnil. apply (f_equal length) in Hnil.
      rewrite length_drop in Hnil. simpl in Hnil. lia.
Qed.

Lemma AddTexts_keys_inv mc texts mc' :
  0 ≤ order mc → Forall (λ t : gostring, len t ≤ MaxInt) texts →
  keys_have_order mc → AddTexts mc texts = Some mc' → keys_have_order mc'.
Proof.
  intros Hk Hvalid Hkeys Hrun s Hs. rewrite (AddTexts_order _ _ _ Hrun).
  destruct (AddTexts_key_origin mc texts mc' s Hk Hvalid Hrun Hs) as [Hold|[Hlen _]];
    [by apply Hkeys | done].
Qed.

(** X3: the keys of a chain built by AddText with an order that is not
    negative all have [order] bytes, and each is a window of one of the
    texts that has at least one byte after it. *)
Theorem AddTexts_keys_are_windows k texts mc s :
  0 ≤ k → Forall (λ t : gostring, len t ≤ MaxInt) texts →
  AddTexts (NewMarkovChain k) texts = Some mc → is_Some (transitions mc !! s) →
  len s = k ∧ ∃ t before after, t ∈ texts ∧ t = before ++ s ++ after ∧ after ≠ [].
Proof.
  intros Hk Hvalid Hrun Hs.
  destruct (AddTexts_key_origin (NewMarkovChain k) texts mc s Hk Hvalid Hrun Hs)
    as [[l Hold]|H]; [|done].
  simpl in Hold. by rewrite lookup_empty in Hold.
Qed.

Lemma AddTexts_keys_are_windows_witness :
  len (bytes "a") = 1 ∧
  ∃ t before after, t ∈ [bytes "abab"; bytes "bab"] ∧
                    t = before ++ bytes "a" ++ after ∧ after ≠ [].
Proof.
  apply (AddTexts_keys_are_windows 1 [bytes "abab"; bytes "bab"] ababab (bytes "a")).
  - by vm_compute.
  - repeat constructor; by vm_compute.
  - reflexivity.
  - by exists [98; 98; 98].
Defined.

Lemma transition_count_append mc state c :
  transition_count (append_transition mc state c) = S (transition_count mc).
Proof.
  unfold transition_count, append_transition, successors. simpl.
  destruct (transitions mc !! state) as [l|] eqn:Hl; simpl.
  - rewrite <- (insert_delete_eq (transitions mc)).
    rewrite map_to_list_insert by apply lookup_delete_eq.
    rewrite <- (map_to_list_delete (transitions mc) state l Hl). simpl.
    rewrite length_app. simpl. lia.
  - by rewrite map_to_list_insert by done.
Qed.

Lemma AddText_loop_count text :
  ∀ n i mc mc', AddText_loop n text i mc = Some mc' →
  transition_count mc' = (n + transition_count mc)%nat.
Proof.
  induction n as [|n IH]; simpl; intros i mc mc' Hrun.
  - by simplify_eq.
  - destruct (slice text i _) as [state|]; simpl in Hrun; [|done].
    destruct (index text _) as [b|]; simpl in Hrun; [|done].
    rewrite (IH _ _ _ Hrun), transition_count_append. lia.
Qed.

Lemma size_le_transition_count mc :
  lists_nonempty mc → (size (transitions mc) ≤ transition_count mc)%nat.
Proof.
  intros Hall. unfold transition_count. rewrite <- length_map_to_list.
  assert (Forall (λ p : list ascii * list Z, p.2 ≠ []) (map_to_list (transitions mc))) as HF.
  { apply Forall_forall. intros [s l] Hin. apply elem_of_map_to_list in Hin.
    simpl. by eapply Hall. }
  induction HF as [|[s l] rest Hne _ IH]; simpl; [done|].
  simpl in Hne. destruct l; [done|]. simpl. lia.
Qed.

(** X4: a call of AddText on a chain whose order is not negative records
    [len(text) - order] transitions, none if that is negative; and a table
    without an empty list has no more keys than transitions. *)
Theorem AddText_count mc text mc' :
  0 ≤ order mc → len text ≤ MaxInt → AddText mc text = Some mc' →
  transition_count mc' = (transition_count mc + Z.to_nat (len text - order mc))%nat ∧
  (lists_nonempty mc → (size (transitions mc') ≤ transition_count mc')%nat).
Proof.
  intros Hk Hmax Hrun. split.
  - unfold AddText in Hrun. case_decide as Hle.
    + simplify_eq. lia.
    + rewrite int_sub_exact in Hrun by (unfold MaxInt in *; lia).
      rewrite (AddText_loop_count _ _ _ _ _ Hrun). lia.
  - intros Hall. apply size_le_transition_count.
    eapply (AddText_inv lists_nonempty); [| exact Hall | exact Hrun].
    intros m _ state b HI _ _. by apply lists_nonempty_step.
Qed.

Lemma AddText_count_witness :
  transition_count ababab =
    (transition_count (NewMarkovChain 1) + Z.to_nat (len (bytes "ababab") - 1))%nat ∧
  (lists_nonempty (NewMarkovChain 1) →
   (size (transitions ababab) ≤ transition_count ababab)%nat).
Proof.
  apply (AddText_count (NewMarkovChain 1) (bytes "ababab") ababab);
    [by vm_compute | by vm_compute | reflexivity].
Defined.

Lemma wrap_over z : MaxInt < z → z < 2 ^ 64 → wrap z = z - 2 ^ 64.
Proof.
  unfold wrap, MaxInt. intros Hlo Hhi.
  replace (z + 2 ^ 63) with (z + 2 ^ 63 - 2 ^ 64 + 1 * 2 ^ 64) by lia.
  rewrite Z.mod_add by lia. rewrite Z.mod_small; lia.
Qed.

(** With a negative order and a loop bound that does not overflow, the first
    iteration slices [text[0:order]]. *)
Lemma AddText_negative_panics mc text :
  - 2 ^ 63 ≤ order mc → order mc < 0 → len text - order mc ≤ MaxInt →
  AddText mc text = None.
Proof.
  intros Hmin Hneg Hfit. pose proof (len_nonneg text) as Hnn.
  unfold AddText. rewrite decide_False by lia.
  rewrite int_sub_exact by lia.
  destruct (Z.to_nat (len text - order mc)) as [|n] eqn:Hn; [lia|]. simpl.
  rewrite int_add_exact by (unfold MaxInt; lia).
  unfold slice. by rewrite decide_False by lia.
Qed.

(** With a negative order and a loop bound that overflows, the loop does not
    run. *)
Lemma AddText_negative_overflow mc text :
  - 2 ^ 63 ≤ order mc → len text ≤ MaxInt → MaxInt < len text - order mc →
  AddText mc text = Some mc.
Proof.
  intros Hmin Hmax Hover. pose proof (len_nonneg text) as Hnn.
  unfold AddText. rewrite decide_False by (unfold MaxInt in *; lia).
  unfold int_sub. rewrite wrap_over by (unfold MaxInt in *; lia).
  by replace (Z.to_nat (len text - order mc - 2 ^ 64)) with 0%nat
    by (unfold MaxInt in *; lia).
Qed.



Lemma observed_cons text k state i starts :
  observed text k state (i :: starts) =
  match (if decide (take (Z.to_nat k) (drop i text) = state)
         then rune <$> text !! (i + Z.to_nat k)%nat else None) with
  | Some c => c :: observed text k state starts
  | None => observed text k state starts
  end.
Proof. reflexivity. Qed.

Lemma observed_order_zero text state :
  ∀ n i, (i + n = length text)%nat →
  observed text 0 state (seq i n) = if decide (state = []) then rune <$> drop i text else [].
Proof.
  induction n as [|n IH]; intros i Hlen.
  - rewrite drop_ge by lia. by case_decide.
  - simpl seq. rewrite observed_cons, IH by lia.
    change (Z.to_nat 0) with 0%nat. rewrite Nat.add_0_r, take_0.
    destruct (lookup_lt_is_Some_2 text i) as [b Hb]; [lia|].
    rewrite Hb. simpl. rewrite (drop_S _ _ _ Hb).
    destruct (decide (state = [])) as [->|Hne].
    + by rewrite decide_True by done.
    + rewrite decide_False; [done|]. by intros <-.
Qed.

(** X6: with order 0 AddText files every byte of a text that is not empty
    under the empty state, in the order of the text: the table of a new chain
    is the single entry of the empty state. *)
Theorem AddText_order_zero_table text :
  len text ≤ MaxInt →
  AddText (NewMarkovChain 0) text =
    Some {| transitions := if decide (text = []) then ∅ else {[ [] := rune <$> text ]};
            order := 0 |}.
Proof.
  intros Hmax.
  destruct (AddText_observed (NewMarkovChain 0) text) as (mc & -> & Hord & Hlook);
    [done..|].
  f_equal. destruct mc as [tr o]. simpl in *. subst o. f_equal.
  apply map_eq. intros state. rewrite Hlook, lookup_empty.
  rewrite Z.sub_0_r. unfold len. rewrite Nat2Z.id.
  rewrite observed_order_zero by done. rewrite drop_0.
  destruct (decide (text = [])) as [->|Hne].
  - rewrite lookup_empty. by case_decide.
  - destruct (decide (state = [])) as [->|Hs].
    + rewrite lookup_singleton_eq. by destruct text.
    + by rewrite lookup_singleton_ne.
Qed.

Lemma AddText_order_zero_table_witness :
  AddText (NewMarkovChain 0) (bytes "abc") =
    Some {| transitions := if decide (bytes "abc" = []) then ∅
                           else {[ [] := rune <$> bytes "abc" ]};
            order := 0 |}.
Proof. apply (AddText_order_zero_table (bytes "abc")). by vm_compute. Defined.

(** ** Chains built by AddText, and Generate on them *)

Lemma AddTexts_lists_nonempty_inv mc texts mc' :
  lists_nonempty mc → AddTexts mc texts = Some mc' → lists_nonempty mc'.
Proof.
  intros Hall Hrun. eapply (AddTexts_inv lists_nonempty); [| exact Hall | exact Hrun].
  intros _ m _ state b HI _ _. by apply lists_nonempty_step.
Qed.

Lemma lists_nonempty_new k : lists_nonempty (NewMarkovChain k).
Proof. intros s l. simpl. by rewrite lookup_empty. Qed.

(** Every rune AddText stores is the value of a byte. *)
Lemma AddTexts_runes_are_bytes k texts mc :
  AddTexts (NewMarkovChain k) texts = Some mc →
  ∀ s c, c ∈ successors mc s → 0 ≤ c ∧ c ≤ 255.
Proof.
  intros Hrun.
  eapply (AddTexts_inv (λ m, ∀ s c, c ∈ successors m s → 0 ≤ c ∧ c ≤ 255));
    [| |exact Hrun].
  - intros _ m _ state b HI _ _ s c. rewrite successors_append_transition.
    case_decide; [|apply HI].
    intros [Hc | ->%list_elem_of_singleton]%elem_of_app; [by eapply HI|].
    apply rune_range.
  - intros s c. unfold successors. simpl. rewrite lookup_empty. simpl.
    by intros ?%elem_of_nil.
Qed.

(** From texts of bytes below 0x80 AddText builds a table of runes below
    0x80. *)
Lemma AddTexts_table_ascii k texts mc :
  Forall text_ascii texts → AddTexts (NewMarkovChain k) texts = Some mc → table_ascii mc.
Proof.
  intros Hascii. revert mc.
  assert (∀ mc0 mc, table_ascii mc0 → AddTexts mc0 texts = Some mc → table_ascii mc) as H.
  { induction Hascii as [|text rest Htext _ IH]; simpl; intros mc0 mc H0 Hrun.
    - by simplify_eq.
    - destruct (AddText mc0 text) as [mc1|] eqn:H1; simpl in Hrun; [|done].
      eapply IH; [|exact Hrun].
      eapply (AddText_inv table_ascii); [| exact H0 | exact H1].
      intros m i state b HI _ Hb s c. rewrite successors_append_transition.
      case_decide; [|apply HI].
      intros [Hc | ->%list_elem_of_singleton]%elem_of_app; [by eapply HI|].
      apply index_Some in Hb as (_ & _ & Hb).
      split; [apply rune_range|]. apply Htext. by eapply list_elem_of_lookup_2. }
  intros mc. apply H. intros s c. unfold successors. simpl. rewrite lookup_empty. simpl.
  by intros ?%elem_of_nil.
Qed.

(** A chain AddText has put a transition in has an order that is not
    negative. *)
Lemma built_order mc k texts :
  - 2 ^ 63 ≤ k → AddTexts (NewMarkovChain k) texts = Some mc →
  order mc = k ∧ (transitions mc ≠ ∅ → 0 ≤ k).
Proof.
  intros Hmin Hrun. split; [by apply (AddTexts_order _ _ _ Hrun)|].
  intros Hne. destruct (decide (0 ≤ k)) as [|Hneg]; [done|]. exfalso.
  apply AddTexts_negative_order in Hrun; [|simpl; lia..]. by subst mc.
Qed.

Section Generate_more_facts.
Context (R : RandSource) (it : MapIter).

(** With a negative order the slice for the first cursor is out of range. *)
Lemma first_cursor_fails mc (starter : gostring) :
  - 2 ^ 63 ≤ order mc → order mc < 0 → len starter ≤ MaxInt →
  slice starter (int_sub (len starter) (order mc)) (len starter) = None.
Proof.
  intros Hmin Hneg Hmax. pose proof (len_nonneg starter) as Hnn.
  unfold slice. apply decide_False. unfold int_sub.
  destruct (decide (len starter - order mc ≤ MaxInt)) as [Hfit|Hover].
  - rewrite wrap_id by lia. lia.
  - rewrite wrap_over by (unfold MaxInt in *; lia). unfold MaxInt in *. lia.
Qed.

(** Where Generate returns: everywhere but in the walk of a chain with a
    negative order. *)
Lemma Generate_run_returns now mc length seed starter :
  0 ≤ order mc ∨ transitions mc = ∅ → len starter ≤ MaxInt →
  ∃ run, Generate_run R it now mc length seed starter = Some run ∧
         (lists_nonempty mc → stuck run = false).
Proof.
  intros Hord Hmax.
  destruct (decide (length ≤ 0 ∨ transitions mc = ∅ ∨ length ≤ len starter))
    as [Hcase|Hwalk].
  { eexists. split; [by apply Generate_run_no_walk | done]. }
  destruct (Generate_run_walk R it now mc length seed starter)
    as [(_ & Hge & Hnone) | (run & Hrun & _ & _ & _ & Hstuck)]; [lia | tauto | lia | |].
  - destruct Hord as [Hord|?]; [|tauto].
    destruct (first_cursor_ok mc starter Hord Hmax Hge) as [cur Hcur]. congruence.
  - exists run. split; [done|]. intros Hall. destruct (stuck run); [|done].
    by destruct Hstuck.
Qed.

End Generate_more_facts.

(** X7: Generate panics exactly in the walk of a chain with a negative
    order: a positive length, a table that is not empty, a starter shorter
    than the length and [order < 0], where [starter[len(starter)-order:]] is
    out of range. Everywhere else it returns a string. *)
Theorem Generate_panics_iff (R : RandSource) (it : MapIter) now mc length seed starter :
  - 2 ^ 63 ≤ order mc → len starter ≤ MaxInt →
  Generate R it now mc length seed starter = None ↔
  0 < length ∧ transitions mc ≠ ∅ ∧ len starter < length ∧ order mc < 0.
Proof.
  intros Hmin Hmax. unfold Generate. split.
  - intros Hnone.
    destruct (decide (length ≤ 0 ∨ transitions mc = ∅ ∨ length ≤ len starter))
      as [Hcase|Hwalk].
    { by rewrite Generate_run_no_walk in Hnone by done. }
    repeat split; [lia | tauto | lia |].
    destruct (decide (order mc < 0)) as [|Hk]; [done|]. exfalso.
    destruct (Generate_run_returns R it now mc length seed starter) as (run & Hrun & _);
      [lia | done |].
    by rewrite Hrun in Hnone.
  - intros (Hpos & Hne & Hshort & Hneg). pose proof (len_nonneg starter) as Hnn.
    unfold Generate_run.
    rewrite decide_False by lia.
    rewrite (decide_False (P := Z.of_nat (size (transitions mc)) = 0))
      by by apply size_nonzero.
    rewrite (decide_False (P := len starter >= length)) by lia.
    rewrite (decide_True (P := len starter >= order mc)) by lia.
    by rewrite first_cursor_fails by done.
Qed.

Lemma Generate_panics_iff_witness :
  Generate lcg iter_fwd 0 {| transitions := transitions ababab; order := -1 |} 3 1 [] = None ↔
  0 < 3 ∧ transitions {| transitions := transitions ababab; order := -1 |} ≠ ∅ ∧
  len (A := ascii) [] < 3 ∧ order {| transitions := transitions ababab; order := -1 |} < 0.
Proof.
  apply (Generate_panics_iff lcg iter_fwd 0
           {| transitions := transitions ababab; order := -1 |} 3 1 []); by vm_compute.
Defined.

Lemma EncodeRune_byte_len r :
  0 ≤ r → r ≤ 255 → 1 ≤ len (EncodeRune r) ∧ len (EncodeRune r) ≤ 2.
Proof.
  intros H0 H1. unfold EncodeRune. case_decide; [unfold len; simpl; lia|].
  rewrite decide_True by lia. unfold len. simpl. lia.
Qed.

Lemma written_byte_bounds mc log :
  (∀ s c, c ∈ successors mc s → 0 ≤ c ∧ c ≤ 255) →
  Forall (λ p, p.2 ∈ successors mc p.1) log →
  len log ≤ len (written log) ∧ len (written log) ≤ 2 * len log.
Proof.
  intros Hbytes. induction 1 as [|[s c] log Hin _ IH]; [done|].
  change (written ((s, c) :: log)) with (EncodeRune c ++ written log).
  destruct (Hbytes s c Hin) as [H0 H1].
  pose proof (EncodeRune_byte_len c H0 H1). rewrite len_app.
  unfold len in *. simpl. lia.
Qed.

(** X8: on a chain built by AddText, with a table that is not empty, Generate
    returns a string of at least [length] bytes and at most
    [2*length - min(len(starter), length)]: every rune it writes is the value
    of a byte and takes one byte or two. *)
Theorem Generate_length_bounds (R : RandSource) (it : MapIter) k texts mc now length seed
    starter :
  - 2 ^ 63 ≤ k → AddTexts (NewMarkovChain k) texts = Some mc → transitions mc ≠ ∅ →
  0 ≤ length → length ≤ MaxInt → len starter ≤ MaxInt →
  ∃ out, Generate R it now mc length seed starter = Some out ∧
         length ≤ len out ∧ len out ≤ 2 * length - Z.min (len starter) length.
Proof.
  intros Hmin Hbuild Hne H0 Hmax Hsmax. pose proof (len_nonneg starter) as Hnn.
  destruct (built_order mc k texts Hmin Hbuild) as [Hord Hk]. specialize (Hk Hne).
  assert (lists_nonempty mc) as Hall.
  { eapply AddTexts_lists_nonempty_inv; [apply lists_nonempty_new | exact Hbuild]. }
  unfold Generate.
  destruct (decide (length ≤ 0 ∨ transitions mc = ∅ ∨ length ≤ len starter))
    as [Hcase|Hwalk].
  - rewrite Generate_run_no_walk by done. simpl. eexists. split; [done|].
    unfold len in *. rewrite length_take. destruct Hcase as [?|[?|?]]; [lia | done | lia].
  - destruct (Generate_run_walk R it now mc length seed starter)
      as [(_ & Hge & Hnone) | (run & Hrun & Hout & Hlog & Hlen & Hstuck)];
      [lia | tauto | lia | |].
    + destruct (first_cursor_ok mc starter) as [cur Hcur]; [lia | done | done |].
      congruence.
    + rewrite Hrun. simpl. eexists. split; [done|].
      assert (stuck run = false) as Hns.
      { destruct (stuck run); [|done]. by destruct Hstuck. }
      specialize (Hlen Hns). rewrite int_sub_exact in Hlen by (unfold MaxInt in *; lia).
      pose proof (written_byte_bounds mc (emitted run)
                    (AddTexts_runes_are_bytes k texts mc Hbuild) Hlog) as Hb.
      rewrite Hout, len_app. unfold len in *. lia.
Qed.

Lemma Generate_length_bounds_witness :
  ∃ out, Generate lcg iter_fwd 0 ababab 6 7 (bytes "x") = Some out ∧
         6 ≤ len out ∧ len out ≤ 2 * 6 - Z.min (len (bytes "x")) 6.
Proof.
  apply (Generate_length_bounds lcg iter_fwd 1 [bytes "abab"; bytes "bab"] ababab 0 6 7
           (bytes "x")); first [reflexivity | by vm_compute].
Defined.

(** X9: from texts whose bytes are all below 0x80, with a table that is not
    empty, Generate returns exactly [length] bytes, for every length that is
    not negative, every seed and every starter. *)
Theorem Generate_length_ascii_texts (R : RandSource) (it : MapIter) k texts mc now length
    seed starter :
  - 2 ^ 63 ≤ k → Forall text_ascii texts →
  AddTexts (NewMarkovChain k) texts = Some mc → transitions mc ≠ ∅ →
  0 ≤ length → length ≤ MaxInt → len starter ≤ MaxInt →
  ∃ out, Generate R it now mc length seed starter = Some out ∧ len out = length.
Proof.
  intros Hmin Hascii Hbuild Hne H0 Hmax Hsmax.
  destruct (built_order mc k texts Hmin Hbuild) as [Hord Hk]. specialize (Hk Hne).
  destruct (Generate_run_returns R it now mc length seed starter) as (run & Hrun & Hstuck);
    [lia | done |].
  unfold Generate. rewrite Hrun. simpl. eexists. split; [done|].
  eapply (Generate_length_ascii R it now mc length seed starter run); try done.
  - by eapply AddTexts_table_ascii.
  - apply Hstuck. eapply AddTexts_lists_nonempty_inv; [apply lists_nonempty_new | done].
Qed.

Lemma Generate_length_ascii_texts_witness :
  ∃ out, Generate lcg iter_fwd 0 ababab 6 7 (bytes "x") = Some out ∧ len out = 6.
Proof.
  apply (Generate_length_ascii_texts lcg iter_fwd 1 [bytes "abab"; bytes "bab"] ababab 0 6 7
           (bytes "x")); try by vm_compute.
  repeat constructor; intros b Hb; repeat (apply elem_of_cons in Hb as [->|Hb];
    [by vm_compute|]); by apply elem_of_nil in Hb.
Defined.

(** ** The walk, from its first cursor *)

Section Generate_walk_facts.
Context (R : RandSource) (it : MapIter).

(** The call past its early returns, spelled out. *)
Lemma Generate_run_walk_eq now mc length seed starter :
  0 < length → transitions mc ≠ ∅ → len starter < length →
  Generate_run R it now mc length seed starter =
    ('(cur, g, k) ←
       (if decide (len starter >= order mc) then
          cur ← slice starter (int_sub (len starter) (order mc)) (len starter);
          Some (cur, if decide (seed < 0) then Seed R now else Seed R seed, 0%nat)
        else
          '(cur, g') ← random_state R it mc
                         (if decide (seed < 0) then Seed R now else Seed R seed) 0;
          Some (cur, g', 1%nat));
     '(st, brk) ← Generate_loop R it (Z.to_nat (int_sub length (len starter))) mc
        {| rng := g; ranges := k; currentState := cur; result := starter; picks := [] |};
     Some {| output := result st; emitted := picks st; reseeds := ranges st;
             stuck := brk |}).
Proof.
  intros Hpos Hne Hshort. unfold Generate_run.
  rewrite decide_False by lia.
  rewrite (decide_False (P := Z.of_nat (size (transitions mc)) = 0))
    by by apply size_nonzero.
  by rewrite (decide_False (P := len starter >= length)) by lia.
Qed.

(** A property of the loop's variables that holds of both ways to start the
    walk and that every iteration preserves holds of what the call returns. *)
Lemma Generate_run_inv (I : LoopState R → Prop) now mc length seed starter run :
  0 < length → transitions mc ≠ ∅ → len starter < length →
  (∀ cur g, len starter >= order mc →
     slice starter (int_sub (len starter) (order mc)) (len starter) = Some cur →
     I {| rng := g; ranges := 0; currentState := cur; result := starter; picks := [] |}) →
  (∀ cur g, ¬ len starter >= order mc → is_Some (transitions mc !! cur) →
     I {| rng := g; ranges := 1; currentState := cur; result := starter; picks := [] |}) →
  (∀ st st', I st → Generate_step R it mc st = Some (Continue st') → I st') →
  (∀ st st', I st → Generate_step R it mc st = Some (Break st') → I st') →
  Generate_run R it now mc length seed starter = Some run →
  ∃ st, I st ∧ output run = result st ∧ emitted run = picks st ∧ reseeds run = ranges st.
Proof.
  intros Hpos Hne Hshort Hfirst Hdrawn Hcont Hbrk.
  rewrite Generate_run_walk_eq by done.
  set (g0 := if decide (seed < 0) then Seed R now else Seed R seed).
  assert (∀ st0, I st0 →
    ('(st, brk) ← Generate_loop R it (Z.to_nat (int_sub length (len starter))) mc st0;
     Some {| output := result st; emitted := picks st; reseeds := ranges st;
             stuck := brk |}) = Some run →
    ∃ st, I st ∧ output run = result st ∧ emitted run = picks st ∧
          reseeds run = ranges st) as Hloop.
  { intros st0 H0 Hrun.
    destruct (Generate_loop R it _ mc st0) as [[st brk]|] eqn:Hl; simpl in Hrun; [|done].
    simplify_eq. exists st. split; [|done].
    by eapply (Generate_loop_inv R it I mc Hcont Hbrk _ st0 st brk). }
  case_decide as Hge.
  - destruct (slice starter _ _) as [cur|] eqn:Hs; simpl; [|done].
    apply Hloop. by apply Hfirst.
  - destruct (random_state_ok R it mc g0 0 Hne) as (s & g' & -> & Hs). simpl.
    apply Hloop. by apply Hdrawn.
Qed.

End Generate_walk_facts.

Lemma written_snoc log s r : written (log ++ [(s, r)]) = written log ++ EncodeRune r.
Proof. unfold written. rewrite fmap_app, concat_app. simpl. by rewrite app_nil_r. Qed.

(** The update of a cursor of [order] bytes by a rune below 0x80: the first
    byte goes and the byte of the rune comes. *)
Lemma advance_ascii mc cur r :
  1 ≤ order mc → len cur = order mc → 0 ≤ r → r ≤ 127 →
  advance mc cur r = Some (drop 1 cur ++ [byte r]).
Proof.
  intros Hord Hlen H0 H1. unfold advance. rewrite EncodeRune_ascii by done.
  case_decide as Hgt.
  - rewrite decide_True by lia. rewrite slice_in_range by lia. simpl.
    do 2 f_equal. apply take_ge. rewrite length_drop. unfold len in *. lia.
  - rewrite (nil_length_inv (drop 1 cur)); [done|].
    rewrite length_drop. unfold len in *. lia.
Qed.

Lemma len_trail k (s : gostring) : 0 ≤ k → k ≤ len s → len (trail k s) = k.
Proof. intros H0 Hk. unfold trail, len in *. rewrite length_drop. lia. Qed.

Lemma trail_snoc k (s : gostring) x :
  1 ≤ k → k ≤ len s → trail k (s ++ [x]) = drop 1 (trail k s) ++ [x].
Proof.
  intros H1 Hk. unfold trail, len in *. rewrite length_app. simpl.
  rewrite drop_drop, drop_app_le by lia. do 2 f_equal. lia.
Qed.

Section Generate_cursor_facts.
Context (R : RandSource) (it : MapIter).

(** On a table of runes below 0x80 whose keys have [order] bytes, for an
    order of at least one, every cursor of the walk has [order] bytes. *)
Lemma Generate_run_cursor_len now mc length seed starter run :
  1 ≤ order mc → keys_have_order mc → table_ascii mc → len starter ≤ MaxInt →
  Generate_run R it now mc length seed starter = Some run →
  Forall (λ p, len p.1 = order mc) (emitted run).
Proof.
  intros Hord Hkeys Hascii Hmax Hrun. pose proof (len_nonneg starter) as Hnn.
  destruct (decide (length ≤ 0 ∨ transitions mc = ∅ ∨ length ≤ len starter))
    as [Hcase|Hwalk].
  { rewrite Generate_run_no_walk in Hrun by done. by simplify_eq. }
  assert (transitions mc ≠ ∅) as Hne by tauto.
  destruct (Generate_run_inv R it
    (λ st, len (currentState st) = order mc ∧ Forall (λ p, len p.1 = order mc) (picks st))
    now mc length seed starter run) as (st & [_ Hall] & _ & -> & _);
    [lia | done | lia | | | | | done | done].
  - intros cur g Hge (_ & _ & _ & _ & Hlen)%slice_Some. simpl. split; [|done].
    rewrite Hlen, int_sub_exact by (unfold MaxInt in *; lia). lia.
  - intros cur g _ Hkey. simpl. split; [by apply Hkeys | done].
  - intros st st' [Hcur Hpicks] Hstep.
    destruct (Generate_step_cases R it mc st Hne)
      as [(_ & st1 & r & Hs & Hin & Hp & _ & Hadv & _)
         |(_ & s & Hkey & [(_ & st1 & Hs & _)
                          |(st1 & r & Hs & Hin & Hp & _ & Hadv & _)])];
      [| congruence |]; assert (st1 = st') as -> by congruence.
    + destruct (Hascii _ _ Hin) as [H0 H1].
      rewrite advance_ascii in Hadv by done. injection Hadv as <-. split.
      * rewrite len_app. unfold len in *. rewrite length_drop. simpl. lia.
      * rewrite Hp. apply Forall_app. split; [done|]. by constructor.
    + destruct (Hascii _ _ Hin) as [H0 H1]. pose proof (Hkeys s Hkey) as Hlen.
      rewrite advance_ascii in Hadv by done. injection Hadv as <-. split.
      * rewrite len_app. unfold len in *. rewrite length_drop. simpl. lia.
      * rewrite Hp. apply Forall_app. split; [done|]. by constructor.
  - intros st st' [Hcur Hpicks] Hstep.
    destruct (Generate_step_cases R it mc st Hne)
      as [(_ & st1 & r & Hs & _)
         |(_ & s & Hkey & [(_ & st1 & Hs & Hp & _ & Hc & _)
                          |(st1 & r & Hs & _)])]; [congruence | | congruence].
    assert (st1 = st') as -> by congruence. rewrite Hc, Hp. split; [by apply Hkeys|done].
Qed.

End Generate_cursor_facts.

(** X10: on a chain built, with an order of at least one, from texts whose
    bytes are all below 0x80, every cursor Generate draws a rune for is a key
    of the table and has exactly [order] bytes: whatever the starter and the
    draws, the window slides by one byte and never changes its length. *)
Theorem walk_cursors_have_order (R : RandSource) (it : MapIter) k texts mc now length seed
    starter run :
  1 ≤ k → Forall (λ t : gostring, len t ≤ MaxInt) texts → Forall text_ascii texts →
  AddTexts (NewMarkovChain k) texts = Some mc → len starter ≤ MaxInt →
  Generate_run R it now mc length seed starter = Some run →
  Forall (λ p, len p.1 = k ∧ is_Some (transitions mc !! p.1)) (emitted run).
Proof.
  intros Hk Hvalid Hascii Hbuild Hmax Hrun.
  pose proof (AddTexts_order _ _ _ Hbuild) as Hord. simpl in Hord.
  assert (Forall (λ p, len p.1 = order mc) (emitted run)) as Hlen.
  { eapply (Generate_run_cursor_len R it); [lia | | | done | exact Hrun].
    - eapply (AddTexts_keys_inv (NewMarkovChain k)); [simpl; lia | done | | done].
      intros s [l Hl]. simpl in Hl. by rewrite lookup_empty in Hl.
    - by eapply AddTexts_table_ascii. }
  destruct (Generate_run_output R it now mc length seed starter run Hrun) as [_ Hin].
  rewrite Forall_forall in Hlen, Hin. apply Forall_forall. intros p Hp. split.
  - rewrite <- Hord. by apply Hlen.
  - specialize (Hin p Hp). unfold successors in Hin.
    destruct (transitions mc !! p.1); [done|]. by apply elem_of_nil in Hin.
Qed.

Lemma walk_cursors_have_order_witness :
  ∃ run, Generate_run lcg iter_fwd 0 ababab 6 7 (bytes "x") = Some run ∧
    Forall (λ p, len p.1 = 1 ∧ is_Some (transitions ababab !! p.1)) (emitted run).
Proof.
  eexists. split; [vm_compute; reflexivity|].
  apply (walk_cursors_have_order lcg iter_fwd 1 [bytes "abab"; bytes "bab"] ababab 0 6 7
           (bytes "x")).
  - lia.
  - repeat constructor; by vm_compute.
  - repeat constructor; intros b Hb; repeat (apply elem_of_cons in Hb as [->|Hb];
      [by vm_compute|]); by apply elem_of_nil in Hb.
  - reflexivity.
  - by vm_compute.
  - vm_compute. reflexivity.
Defined.

Section Generate_trail_facts.
Context (R : RandSource) (it : MapIter).

(** X11: the Markov property of the walk. On a table of runes below 0x80,
    for an order of at least one, as long as no state has to be drawn at
    random (no [range] statement was run), every rune is drawn from the list
    of the last [order] bytes of what has been written so far, starter
    included. *)
Theorem walk_follows_trail now mc length seed starter run :
  1 ≤ order mc → table_ascii mc → len starter ≤ MaxInt →
  Generate_run R it now mc length seed starter = Some run → reseeds run = 0%nat →
  ∀ pre p post, emitted run = pre ++ p :: post →
    p.1 = trail (order mc) (starter ++ written pre) ∧ p.2 ∈ successors mc p.1.
Proof.
  intros Hord Hascii Hmax Hrun Hzero pre p post Hsplit.
  pose proof (len_nonneg starter) as Hnn.
  destruct (Generate_run_output R it now mc length seed starter run Hrun) as [_ Hin].
  split; [|rewrite Forall_forall in Hin; apply Hin; rewrite Hsplit; set_solver].
  destruct (decide (length ≤ 0 ∨ transitions mc = ∅ ∨ length ≤ len starter))
    as [Hcase|Hwalk].
  { rewrite Generate_run_no_walk in Hrun by done. simplify_eq. simpl in Hsplit.
    by destruct pre. }
  assert (transitions mc ≠ ∅) as Hne by tauto.
  destruct (Generate_run_inv R it
    (λ st, ranges st = 0%nat →
       order mc ≤ len (result st) ∧
       currentState st = trail (order mc) (result st) ∧
       result st = starter ++ written (picks st) ∧
       ∀ pre p post, picks st = pre ++ p :: post →
         p.1 = trail (order mc) (starter ++ written pre))
    now mc length seed starter run) as (st & HI & _ & Hem & Hre);
    [lia | done | lia | | | | | done |].
  - intros cur g Hge (_ & _ & _ & -> & _)%slice_Some _. simpl.
    rewrite int_sub_exact by (unfold MaxInt in *; lia).
    split; [lia|]. split; [|split; [by rewrite app_nil_r | by intros []]].
    unfold trail. rewrite take_ge by (rewrite length_drop; unfold len in *; lia).
    f_equal. unfold len. lia.
  - intros cur g _ _. simpl. done.
  - intros st0 st' HI Hstep Hz.
    destruct (Generate_step_cases R it mc st0 Hne)
      as [(_ & st1 & r & Hs & Hr & Hp & Hres & Hadv & Hrg)
         |(_ & s & Hkey & [(_ & st1 & Hs & _)
                          |(st1 & r & Hs & _ & _ & _ & _ & Hrg)])];
      [| congruence |]; assert (st1 = st') as -> by congruence; [|lia].
    destruct HI as (Hlen & Hcur & Hresult & Hlog); [lia|].
    destruct (Hascii _ _ Hr) as [H0 H1].
    rewrite advance_ascii in Hadv; [|done | rewrite Hcur; by apply len_trail; lia | done..].
    injection Hadv as <-. rewrite Hres, Hp, EncodeRune_ascii by done.
    split; [rewrite len_app; unfold len in *; simpl; lia|].
    split; [rewrite trail_snoc by done; by rewrite Hcur|].
    split; [rewrite written_snoc, EncodeRune_ascii by done;
            by rewrite Hresult, <- app_assoc|].
    intros pre' p' post' Hsp.
    destruct post' as [|q post'] using rev_ind.
    + apply app_inj_tail in Hsp as [<- <-]. simpl. by rewrite <- Hresult.
    + rewrite app_comm_cons, app_assoc in Hsp. apply app_inj_tail in Hsp as [Hsp _].
      by eapply Hlog.
  - intros st0 st' HI Hstep Hz.
    destruct (Generate_step_cases R it mc st0 Hne)
      as [(_ & st1 & r & Hs & _)
         |(_ & s & Hkey & [(_ & st1 & Hs & _ & _ & _ & Hrg)
                          |(st1 & r & Hs & _)])]; [congruence | | congruence].
    assert (st1 = st') as -> by congruence. lia.
  - destruct HI as (_ & _ & _ & Hlog); [congruence|].
    eapply Hlog. by rewrite <- Hem.
Qed.

End Generate_trail_facts.

Lemma walk_follows_trail_witness :
  ∃ run, Generate_run lcg iter_fwd 0 ababab 5 7 (bytes "xa") = Some run ∧
    ∀ pre p post, emitted run = pre ++ p :: post →
      p.1 = trail (order ababab) (bytes "xa" ++ written pre) ∧
      p.2 ∈ successors ababab p.1.
Proof.
  eexists. split; [vm_compute; reflexivity|].
  apply (walk_follows_trail lcg iter_fwd 0 ababab 5 7 (bytes "xa")).
  - by vm_compute.
  - intros s c Hc. unfold successors, ababab in Hc. simpl in Hc.
    destruct (decide (s = bytes "a")) as [->|Ha].
    + rewrite lookup_insert_eq in Hc. simpl in Hc.
      repeat (apply elem_of_cons in Hc as [->|Hc]; [by vm_compute|]).
      by apply elem_of_nil in Hc.
    + rewrite lookup_insert_ne in Hc by done.
      destruct (decide (s = bytes "b")) as [->|Hb].
      * rewrite lookup_singleton_eq in Hc. simpl in Hc.
        repeat (apply elem_of_cons in Hc as [->|Hc]; [by vm_compute|]).
        by apply elem_of_nil in Hc.
      * rewrite lookup_singleton_ne in Hc by done. by apply elem_of_nil in Hc.
  - by vm_compute.
  - vm_compute. reflexivity.
  - reflexivity.
Defined.

Section Generate_reseed_facts.
Context (R : RandSource).

(** An iteration whose cursor has a list that is not empty does not look at
    the order of the keys. *)
Lemma Generate_step_same it it' mc (st : LoopState R) :
  successors mc (currentState st) ≠ [] →
  Generate_step R it mc st = Generate_step R it' mc st.
Proof.
  intros Hne. unfold Generate_step.
  rewrite !decide_False; [done | |]; intros ?%len_nil_inv; done.
Qed.

(** The count of [range] statements never goes down. *)
Lemma Generate_loop_ranges_mono it mc n (st st' : LoopState R) brk :
  transitions mc ≠ ∅ →
  Generate_loop R it n mc st = Some (st', brk) → (ranges st ≤ ranges st')%nat.
Proof.
  intros Hne Hrun.
  eapply (Generate_loop_inv R it (λ s, (ranges st ≤ ranges s)%nat) mc); [| | | exact Hrun];
    [| | done].
  - intros s s' Hs Hstep.
    destruct (Generate_step_cases R it mc s Hne)
      as [(_ & s1 & r & Hs1 & _ & _ & _ & _ & Hrg)
         |(_ & k & _ & [(_ & s1 & Hs1 & _)
                       |(s1 & r & Hs1 & _ & _ & _ & _ & Hrg)])];
      [| congruence |]; assert (s1 = s') as -> by congruence; lia.
  - intros s s' Hs Hstep.
    destruct (Generate_step_cases R it mc s Hne)
      as [(_ & s1 & r & Hs1 & _)
         |(_ & k & _ & [(_ & s1 & Hs1 & _ & _ & _ & Hrg)
                       |(s1 & r & Hs1 & _)])]; [congruence | | congruence].
    assert (s1 = s') as -> by congruence. lia.
Qed.

(** A loop that ran no [range] statement runs the same way whatever the
    order of the keys. *)
Lemma Generate_loop_no_reseed it it' mc :
  transitions mc ≠ ∅ →
  ∀ n (st st' : LoopState R) brk,
  Generate_loop R it n mc st = Some (st', brk) → ranges st' = ranges st →
  Generate_loop R it' n mc st = Some (st', brk).
Proof.
  intros Hne. induction n as [|n IH]; simpl; intros st st' brk Hrun Hrg; [done|].
  destruct (Generate_step_cases R it mc st Hne)
    as [(Hlist & s1 & r & Hs1 & _ & _ & _ & _ & Hrg1)
       |(_ & k & _ & [(_ & s1 & Hs1 & _ & _ & _ & Hrg1)
                     |(s1 & r & Hs1 & _ & _ & _ & _ & Hrg1)])];
    rewrite Hs1 in Hrun; simpl in Hrun.
  - rewrite <- (Generate_step_same it it' mc st Hlist), Hs1. simpl.
    apply IH; [done | congruence].
  - simplify_eq. lia.
  - apply (Generate_loop_ranges_mono it mc n s1 st' brk Hne) in Hrun. lia.
Qed.

(** X12: when Generate ran no [range] statement (the starter gave the first
    cursor and every cursor met had a list that is not empty) and the seed is
    not negative, the result is reproducible: any order of the keys and any
    reading of the clock give the same string, log and outcome. *)
Theorem Generate_run_reproducible it it' now now' mc length seed starter run :
  0 ≤ seed →
  Generate_run R it now mc length seed starter = Some run → reseeds run = 0%nat →
  Generate_run R it' now' mc length seed starter = Some run.
Proof.
  intros Hseed Hrun Hzero.
  destruct (decide (length ≤ 0 ∨ transitions mc = ∅ ∨ length ≤ len starter))
    as [Hcase|Hwalk].
  { rewrite Generate_run_no_walk in Hrun by done. by rewrite Generate_run_no_walk. }
  assert (transitions mc ≠ ∅) as Hne by tauto.
  rewrite Generate_run_walk_eq in Hrun by (done || lia).
  rewrite Generate_run_walk_eq by (done || lia).
  rewrite (decide_False (P := seed < 0)) in * by lia.
  case_decide as Hge.
  - destruct (slice starter _ _) as [cur|]; simpl in *; [|done].
    destruct (Generate_loop R it _ mc _) as [[st brk]|] eqn:Hloop; simpl in Hrun; [|done].
    simplify_eq. simpl in Hzero.
    by rewrite (Generate_loop_no_reseed it it' mc Hne _ _ _ _ Hloop).
  - exfalso. destruct (random_state R it mc (Seed R seed) 0) as [[cur g]|]; simpl in Hrun;
      [|done].
    destruct (Generate_loop R it _ mc _) as [[st brk]|] eqn:Hloop; simpl in Hrun; [|done].
    apply (Generate_loop_ranges_mono it mc _ _ st brk Hne) in Hloop. simplify_eq.
    simpl in *. lia.
Qed.

(** X13: a table that is not empty but holds only empty lists. With a
    starter shorter than the length Generate draws one key after the first
    cursor, finds its list empty and leaves the loop: it returns the starter
    alone. *)
Theorem Generate_all_lists_empty it now mc length seed starter :
  transitions mc ≠ ∅ → (∀ s, successors mc s = []) → 0 ≤ order mc →
  len starter ≤ MaxInt → len starter < length → length ≤ MaxInt →
  ∃ n, Generate_run R it now mc length seed starter =
         Some {| output := starter; emitted := []; reseeds := n; stuck := true |} ∧
       (n = 1 ∨ n = 2)%nat.
Proof.
  intros Hne Hempty Hord Hsmax Hshort Hmax. pose proof (len_nonneg starter) as Hnn.
  rewrite Generate_run_walk_eq by (done || lia).
  rewrite int_sub_exact by (unfold MaxInt in *; lia).
  destruct (Z.to_nat (length - len starter)) as [|m] eqn:Hm; [lia|].
  assert (∀ st0 : LoopState R, result st0 = starter → picks st0 = [] →
    ('(st, brk) ← Generate_loop R it (S m) mc st0;
     Some {| output := result st; emitted := picks st; reseeds := ranges st;
             stuck := brk |}) =
    Some {| output := starter; emitted := []; reseeds := S (ranges st0);
            stuck := true |}) as Hloop.
  { intros st0 Hres Hpicks. simpl.
    destruct (Generate_step_cases R it mc st0 Hne)
      as [(Hlist & _) | (_ & s & _ & [(_ & st1 & -> & Hp & Hr & _ & Hrg)
                                     |(st1 & r & _ & Hin & _)])].
    - by destruct Hlist.
    - simpl. by rewrite Hr, Hp, Hrg, Hres, Hpicks.
    - rewrite Hempty in Hin. by apply elem_of_nil in Hin. }
  case_decide as Hge.
  - destruct (first_cursor_ok mc starter Hord Hsmax Hge) as [cur ->]. simpl.
    exists 1%nat. split; [by apply Hloop | by left].
  - destruct (random_state_ok R it mc
                (if decide (seed < 0) then Seed R now else Seed R seed) 0 Hne)
      as (s & g' & -> & _).
    simpl. exists 2%nat. split; [by apply Hloop | by right].
Qed.

End Generate_reseed_facts.

Lemma Generate_run_reproducible_witness :
  Generate_run lcg iter_rev 5 ababab 5 7 (bytes "xa") =
  Some {| output := bytes "xabab"; emitted := [(bytes "a", 98); (bytes "b", 97); (bytes "a", 98)];
          reseeds := 0; stuck := false |}.
Proof.
  apply (Generate_run_reproducible lcg iter_fwd iter_rev 0 5 ababab 5 7 (bytes "xa"));
    [lia | vm_compute; reflexivity | reflexivity].
Defined.

Lemma Generate_all_lists_empty_witness :
  ∃ n, Generate_run lcg iter_fwd 0 {| transitions := {[ bytes "a" := [] ]}; order := 1 |}
         3 1 (bytes "a") =
         Some {| output := bytes "a"; emitted := []; reseeds := n; stuck := true |} ∧
       (n = 1 ∨ n = 2)%nat.
Proof.
  apply (Generate_all_lists_empty lcg iter_fwd 0
           {| transitions := {[ bytes "a" := [] ]}; order := 1 |} 3 1 (bytes "a")).
  - intros H. apply (f_equal (λ m : gmap (list ascii) (list Z), m !! bytes "a")) in H.
    vm_compute in H. discriminate.
  - intros s. unfold successors. simpl. destruct (decide (s = bytes "a")) as [->|Hs].
    + by rewrite lookup_singleton_eq.
    + by rewrite lookup_singleton_ne.
  - by vm_compute.
  - by vm_compute.
  - by vm_compute.
  - by vm_compute.
Defined.

(** ** main *)

Lemma scan_text_all data : scan_text data = data.
Proof.
  unfold scan_text, ScanBytes.
  assert (∀ builder, foldl (λ b token, b ++ token) builder ((λ c : ascii, [c]) <$> data) =
                     builder ++ data) as H.
  { induction data as [|c data IH]; intros builder; simpl.
    - by rewrite app_nil_r.
    - rewrite IH. by rewrite <- app_assoc. }
  apply H.
Qed.

(** A text longer than an order that is not negative leaves a table that is
    not empty. *)
Lemma AddText_table_nonempty k text mc :
  0 ≤ k → k < len text → len text ≤ MaxInt →
  AddText (NewMarkovChain k) text = Some mc → transitions mc ≠ ∅.
Proof.
  intros Hk Hlen Hmax Hrun Hempty.
  unfold AddText in Hrun. simpl in Hrun. rewrite decide_False in Hrun by lia.
  rewrite int_sub_exact in Hrun by (unfold MaxInt in *; lia).
  apply AddText_loop_count in Hrun. unfold transition_count in Hrun.
  rewrite Hempty in Hrun. simpl in Hrun. rewrite map_to_list_empty in Hrun.
  simpl in Hrun. lia.
Qed.

Section main_facts.
Context (R : RandSource) (it : MapIter).

(** X14: the program on an input it can read. It panics exactly when the
    order [-k] is negative (and [len(input) - k] does not overflow), in
    AddText; otherwise it prints one line: what Generate returns on the chain
    AddText builds from the input, followed by a newline; and that string is
    the starter cut to [-l] bytes followed by the encoding of the runes of the
    walk, each of them taken from the list of its cursor. *)
Theorem main_outcome now env f rd :
  (if decide (flag_i f ≠ []) then open env (flag_i f) else Some (stdin env)) = Some rd →
  fails rd = false → - 2 ^ 63 ≤ flag_k f → len (content rd) ≤ MaxInt →
  len (flag_starter f) ≤ MaxInt →
  (flag_k f < 0 ∧ len (content rd) - flag_k f ≤ MaxInt ∧ main R it now env f = Panic) ∨
  (¬ (flag_k f < 0 ∧ len (content rd) - flag_k f ≤ MaxInt) ∧
   ∃ mc run,
     AddText (NewMarkovChain (flag_k f)) (content rd) = Some mc ∧
     Generate_run R it now mc (flag_l f) (flag_seed f) (flag_starter f) = Some run ∧
     main R it now env f = Printed (output run ++ [byte 10]) ∧
     output run =
       take (Z.to_nat (flag_l f)) (flag_starter f) ++ written (emitted run) ∧
     Forall (λ p, p.2 ∈ successors mc p.1) (emitted run)).
Proof.
  intros Hsrc Hok Hmin Hmax Hsmax. unfold main. rewrite Hsrc, Hok, scan_text_all.
  assert (∀ mc, 0 ≤ order mc ∨ transitions mc = ∅ →
    ∃ run, Generate_run R it now mc (flag_l f) (flag_seed f) (flag_starter f) = Some run ∧
      match Generate R it now mc (flag_l f) (flag_seed f) (flag_starter f) with
      | Some output => Printed (output ++ [byte 10])
      | None => Panic
      end = Printed (output run ++ [byte 10]) ∧
      output run =
        take (Z.to_nat (flag_l f)) (flag_starter f) ++ written (emitted run) ∧
      Forall (λ p, p.2 ∈ successors mc p.1) (emitted run)) as Hgen.
  { intros mc Hmc.
    destruct (Generate_run_returns R it now mc (flag_l f) (flag_seed f) (flag_starter f))
      as (run & Hrun & _); [done..|].
    destruct (Generate_run_output R it now mc _ _ _ run Hrun) as [Hout Hall].
    exists run. unfold Generate. rewrite Hrun. by repeat split. }
  destruct (decide (flag_k f < 0 ∧ len (content rd) - flag_k f ≤ MaxInt)) as [[Hneg Hfit]|Hno].
  - left. repeat split; [done..|].
    by rewrite (AddText_negative_panics (NewMarkovChain (flag_k f))).
  - right. split; [done|].
    destruct (decide (0 ≤ flag_k f)) as [Hk|Hneg].
    + destruct (AddText_observed (NewMarkovChain (flag_k f)) (content rd))
        as (mc & -> & Hord & _); [done..|].
      destruct (Hgen mc) as (run & Hrun & Hline & Hout & Hall); [left; by rewrite Hord|].
      by exists mc, run.
    + rewrite (AddText_negative_overflow (NewMarkovChain (flag_k f))) by (simpl; lia || done).
      destruct (Hgen (NewMarkovChain (flag_k f))) as (run & Hrun & Hline & Hout & Hall);
        [by right|].
      by exists (NewMarkovChain (flag_k f)), run.
Qed.

(** X15: an input that is not longer than the order. The table stays empty
    and the program prints the starter, cut to [-l] bytes, and a newline: the
    input has no part in the output. *)
Theorem main_short_input now env f rd :
  (if decide (flag_i f ≠ []) then open env (flag_i f) else Some (stdin env)) = Some rd →
  fails rd = false → len (content rd) ≤ flag_k f →
  main R it now env f = Printed (take (Z.to_nat (flag_l f)) (flag_starter f) ++ [byte 10]).
Proof.
  intros Hsrc Hok Hshort. unfold main. rewrite Hsrc, Hok, scan_text_all.
  unfold AddText. simpl. rewrite decide_True by done.
  unfold Generate. by rewrite Generate_run_no_walk by auto.
Qed.

(** X16: an input of bytes below 0x80 that is longer than the order. For
    every [-l] that is not negative the program prints exactly [-l] bytes and
    a newline. *)
Theorem main_ascii_input now env f rd :
  (if decide (flag_i f ≠ []) then open env (flag_i f) else Some (stdin env)) = Some rd →
  fails rd = false → text_ascii (content rd) →
  0 ≤ flag_k f → flag_k f < len (content rd) → len (content rd) ≤ MaxInt →
  0 ≤ flag_l f → flag_l f ≤ MaxInt → len (flag_starter f) ≤ MaxInt →
  ∃ out, main R it now env f = Printed (out ++ [byte 10]) ∧ len out = flag_l f.
Proof.
  intros Hsrc Hok Hascii Hk Hlong Hmax Hl Hlmax Hsmax.
  unfold main. rewrite Hsrc, Hok, scan_text_all.
  destruct (AddText_observed (NewMarkovChain (flag_k f)) (content rd))
    as (mc & Hbuild & Hord & _); [done..|].
  rewrite Hbuild.
  assert (AddTexts (NewMarkovChain (flag_k f)) [content rd] = Some mc) as Hbuilds.
  { simpl. by rewrite Hbuild. }
  destruct (Generate_run_returns R it now mc (flag_l f) (flag_seed f) (flag_starter f))
    as (run & Hrun & Hstuck); [left; by rewrite Hord | done |].
  unfold Generate. rewrite Hrun. simpl. exists (output run). split; [done|].
  eapply (Generate_length_ascii R it now mc); [| | done | done | exact Hrun |].
  - by eapply (AddText_table_nonempty (flag_k f) (content rd)).
  - eapply AddTexts_table_ascii; [|exact Hbuilds]. by constructor.
  - apply Hstuck. eapply AddTexts_lists_nonempty_inv; [apply lists_nonempty_new | done].
Qed.

End main_facts.

Lemma main_outcome_witness :
  (flag_k flags_file < 0 ∧ len (bytes "abab") - flag_k flags_file ≤ MaxInt ∧
   main lcg iter_fwd 0 sample_env flags_file = Panic) ∨
  (¬ (flag_k flags_file < 0 ∧ len (bytes "abab") - flag_k flags_file ≤ MaxInt) ∧
   ∃ mc run,
     AddText (NewMarkovChain (flag_k flags_file)) (bytes "abab") = Some mc ∧
     Generate_run lcg iter_fwd 0 mc (flag_l flags_file) (flag_seed flags_file)
       (flag_starter flags_file) = Some run ∧
     main lcg iter_fwd 0 sample_env flags_file = Printed (output run ++ [byte 10]) ∧
     output run =
       take (Z.to_nat (flag_l flags_file)) (flag_starter flags_file) ++
       written (emitted run) ∧
     Forall (λ p, p.2 ∈ successors mc p.1) (emitted run)).
Proof.
  apply (main_outcome lcg iter_fwd 0 sample_env flags_file
           {| content := bytes "abab"; fails := false |});
    [reflexivity | reflexivity | by vm_compute | by vm_compute | by vm_compute].
Defined.

Lemma main_short_input_witness :
  main lcg iter_fwd 0 sample_env flags_short = Printed (bytes "hi" ++ [byte 10]).
Proof.
  apply (main_short_input lcg iter_fwd 0 sample_env flags_short
           {| content := bytes "x"; fails := false |});
    [reflexivity | reflexivity | by vm_compute].
Defined.

Lemma main_ascii_input_witness :
  ∃ out, main lcg iter_fwd 0 sample_env flags_file = Printed (out ++ [byte 10]) ∧
         len out = flag_l flags_file.
Proof.
  apply (main_ascii_input lcg iter_fwd 0 sample_env flags_file
           {| content := bytes "abab"; fails := false |});
    [reflexivity | reflexivity | | by vm_compute ..].
  intros b Hb. simpl in Hb.
  repeat (apply elem_of_cons in Hb as [->|Hb]; [by vm_compute|]).
  by apply elem_of_nil in Hb.
Defined.

(** ** A byte above 0x7F in the walk *)

(** X17: on a table whose keys have [order] bytes, for an order of at least
    one, writing a rune between 0x80 and 0xFF (the value of a byte above
    0x7F) leaves a cursor of [order + 1] bytes, which is no key: the next
    iteration finds no list for it and has to draw a state at random. *)
Theorem non_ascii_rune_loses_cursor mc cur r cur' :
  1 ≤ order mc → keys_have_order mc → len cur = order mc → 128 ≤ r → r ≤ 255 →
  advance mc cur r = Some cur' →
  len cur' = order mc + 1 ∧ transitions mc !! cur' = None ∧ successors mc cur' = [].
Proof.
  intros Hord Hkeys Hlen H0 H1 Hadv.
  assert (len cur' = order mc + 1) as Hlen'.
  { rewrite (advance_length mc cur r cur') by done.
    unfold EncodeRune. rewrite decide_False by lia. rewrite decide_True by lia.
    unfold len. simpl. lia. }
  assert (transitions mc !! cur' = None) as Hnone.
  { destruct (transitions mc !! cur') as [l|] eqn:Hl; [|done].
    assert (len cur' = order mc) by (apply Hkeys; by exists l). lia. }
  split; [done|]. split; [done|]. unfold successors. by rewrite Hnone.
Qed.

Lemma non_ascii_rune_loses_cursor_witness :
  len [byte 195; byte 131] = order eacute_chain + 1 ∧
  transitions eacute_chain !! [byte 195; byte 131] = None ∧
  successors eacute_chain [byte 195; byte 131] = [].
Proof.
  apply (non_ascii_rune_loses_cursor eacute_chain [byte 169] 195 [byte 195; byte 131]).
  - by vm_compute.
  - apply (AddTexts_keys_inv (NewMarkovChain 1) [eacute ++ eacute] eacute_chain).
    + by vm_compute.
    + repeat constructor; by vm_compute.
    + intros s [l Hl]. simpl in Hl. by rewrite lookup_empty in Hl.
    + reflexivity.
  - reflexivity.
  - lia.
  - lia.
  - reflexivity.
Defined.
